(** * Async call tracking (src/redux/actions/async.ts)

    A shallow embedding of the action creators of [async.ts] and of the
    host machinery they drive (the redux store, [setTimeout] /
    [clearTimeout], and the promise chain built by [startAsync]).

    The module state of [async.ts] ([pendingCleanCallbacks],
    [asyncCallCache], [nextAsyncId]) and the host state are fields of one
    record [World]; the action creators are computations in a small
    state-and-exception monad over it.  The three callbacks that
    [startAsync] attaches with [.then], [.catch] and [.finally] are separate
    definitions, run by separate steps of the event loop: they are reactions
    of three chained promises, and other jobs (or a store subscriber called
    back during a dispatch) may run between them.

    [pendingCleanCallbacks] and [asyncCallCache] are object literals used as
    dictionaries: what they answer for an id follows the rules of property
    access of the language (prototype chain, the "__proto__" accessor), which
    are written out below.

    Taken for granted: a thunk returns its promise without throwing,
    [dispatch] does not throw, and promises are not cancelled (Bluebird's
    default). *)

From stdpp Require Import gmap strings pretty list fin_maps.
From Stdlib Require Import NArith Lia.

Set Default Proof Using "Type*".
Local Open Scope string_scope.
Local Open Scope N_scope.

(** ** Actions (the [AsyncAction] union of async.ts) *)

(** The status enumeration imported from [../reducers/async]. *)
Inductive AsyncStatus :=
  NOT_STARTED | PENDING | RESOLVED | REJECTED | FINISHED.

Global Instance AsyncStatus_eq_dec : EqDecision AsyncStatus.
Proof. solve_decision. Defined.

(** The action-type constants imported from [../constants]. *)
Inductive ActionType :=
  | ASYNC_FINISHED
  | ASYNC_REJECTED
  | ASYNC_RESOLVED
  | ASYNC_STARTED
  | CLEAN_ASYNC_STATE
  | RELEASE_ASYNC_STATE
  | RESET_ASYNC_STATE
  | RETAIN_ASYNC_STATE.

Global Instance ActionType_eq_dec : EqDecision ActionType.
Proof. solve_decision. Defined.

(** A JavaScript [Error], identified by its message; the value an
    operation resolves to is opaque to the tracker. *)
Definition Error := string.
Definition Value := string.

Record AsyncMetadata := { asyncId : string }.

(** [AsyncMetaAction] has no [payload] and no [error] flag;
    [AsyncErrorAction] has [error: true] and the thrown error as payload. *)
Record AsyncAction := {
  error : bool;
  meta : AsyncMetadata;
  payload : option Error;
  type : ActionType
}.

Definition metaAction (t : ActionType) (i : string) : AsyncAction :=
  {| error := false; meta := {| asyncId := i |}; payload := None; type := t |}.

(** ** The store

    [startAsync] talks to the redux store through [dispatch] and
    [selectAsyncStatus (getState ()) id] only.  The reducer and the selector
    live in [../reducers/async] and [../selectors/async]; the tracker is
    written against this interface. *)
Class Store (S : Type) := {
  initialState : S;
  reducer : S → AsyncAction → S;
  selectAsyncStatus : S → string → AsyncStatus
}.

(** ** Promises, timers and the event log *)

(** [AsyncCallPromise]: a promise (known by its identity) carrying the extra
    [id] property. *)
Record AsyncCallPromise := { promise : nat; id : string }.

Global Instance AsyncCallPromise_eq_dec : EqDecision AsyncCallPromise.
Proof. solve_decision. Defined.

(** ** Objects used as dictionaries

    [pendingCleanCallbacks] and [asyncCallCache] are object literals ([{}])
    indexed by the id of a call.  Such an object answers a name it holds no
    property for with what its prototype answers; the prototype of an object
    literal is [Object.prototype], which holds the names below.  All of them
    are methods but "__proto__", an accessor: reading it yields the
    prototype of the object; assigning an object to it makes that object the
    prototype; assigning a number to it does nothing.  An assignment to any
    of the other names gives the object a property of its own, and [delete]
    removes only a property the object holds itself. *)
Definition Object_prototype : list string :=
  ["__proto__"; "__defineGetter__"; "__defineSetter__"; "__lookupGetter__";
   "__lookupSetter__"; "constructor"; "hasOwnProperty"; "isPrototypeOf";
   "propertyIsEnumerable"; "toLocaleString"; "toString"; "valueOf"].

(** What [asyncCallCache[id]] yields when it is not [undefined], and so what
    [startAsync] may return: a handle, or a value found on the prototype
    chain of the cache (known by the name it was found under), which is not
    a handle. *)
Inductive Returned :=
  | Handle (a : AsyncCallPromise)
  | Inherited (k : string).

Global Instance Returned_eq_dec : EqDecision Returned.
Proof. solve_decision. Defined.

(** How a promise settles. *)
Inductive Outcome :=
  | Fulfilled (res : Value)
  | Rejected (err : Error).

(** Progress of the chain [b.then(..).catch(..).finally(..)] whose last
    promise is the handle returned by [startAsync]. *)
Inductive Phase :=
  | Running                 (* the operation has not settled *)
  | Settled (o : Outcome)   (* the then / catch callback has run *)
  | Done (o : Outcome).     (* the finally callback has run: the handle is settled with [o] *)

Record Chain := { chain_id : string; chain_phase : Phase }.

(** The first argument of [startAsync]: a promise that is already running,
    or a thunk that starts the operation when called.  Both are opaque and
    known by a tag. *)
Inductive Work :=
  | APromise (tag : nat)
  | AThunk (tag : nat).

Definition isPromise (p : Work) : bool :=
  match p with APromise _ => true | AThunk _ => false end.

(** An armed timeout: the id captured by the callback
    [() => dispatch(actionCreators.cleanAsyncState(id))] and the time it is
    due. *)
Record Timer := { timer_id : string; due : N }.

(** Who dispatched an action: a callback of the chain of a given handle, the
    callback of a given timeout, or the code that uses the tracker. *)
Inductive Origin :=
  | ByCall (p : nat)
  | ByTimer (h : nat)
  | ByCaller.

Inductive Effect :=
  | EDispatch (o : Origin) (a : AsyncAction)
  | EInvoke (p : nat) (w : Work)          (* the operation behind handle p is taken / started *)
  | ESetTimeout (p : nat) (h : nat) (i : string) (delay : N)
  | EClearTimeout (h : option nat)
  | EWarn (msg : string).

Section Tracker.
Context {S : Type} `{!Store S}.

Record World := {
  store : S;                                         (* redux state *)
  pendingCleanCallbacks : gmap string nat;           (* the properties the object holds: id ↦ timeout handle *)
  asyncCallCache : gmap string AsyncCallPromise;     (* the properties the object holds: id ↦ handle *)
  cachePrototype : option AsyncCallPromise;          (* the handle that was made the prototype of
                                                        asyncCallCache; None: Object.prototype *)
  nextAsyncId : N;
  timers : gmap nat Timer;                           (* timeouts armed and not yet fired or cleared *)
  nextTimer : nat;
  chains : gmap nat Chain;                           (* chains built by startAsync, by handle *)
  nextPromise : nat;
  now : N;                                           (* clock of the host, in ms *)
  log : list Effect                                  (* newest first *)
}.

Definition initial : World :=
  {| store := initialState; pendingCleanCallbacks := ∅; asyncCallCache := ∅;
     cachePrototype := None; nextAsyncId := 0; timers := ∅; nextTimer := 0; chains := ∅;
     nextPromise := 0; now := 0; log := [] |}.

(** *** The monad: state passing over [World], with exceptions *)

Inductive Completion (A : Type) :=
  | Return (a : A)
  | Throw (e : Error).
Global Arguments Return {A} a.
Global Arguments Throw {A} e.

Definition M (A : Type) : Type := World → Completion A * World.

Definition throw {A} (e : Error) : M A := λ w, (Throw e, w).
Definition gets {A} (f : World → A) : M A := λ w, (Return (f w), w).
Definition modify (f : World → World) : M unit := λ w, (Return tt, f w).

Global Instance M_ret : MRet M := λ A a w, (Return a, w).
Global Instance M_bind : MBind M := λ A B k m w,
  match m w with
  | (Return a, w') => k a w'
  | (Throw e, w') => (Throw e, w')
  end.

End Tracker.

Global Arguments World S : clear implicits.
Global Arguments M S A : clear implicits.

(** The promise objects are those of the promise library (bluebird), which
    is not part of the repository.  Once a handle is the prototype of
    [asyncCallCache], the cache answers a name it holds no property for with
    what the handle answers: its [id] (set by [startAsync]), the names of
    [Object.prototype], and whatever else a promise object of the library
    holds in the state it is in ([then], [catch], the fields of the library),
    with a value other than [undefined].  The latter is left open. *)
Class PromiseObjects (S : Type) := {
  handle_answers : World S → AsyncCallPromise → string → bool
}.

Section ActionCreators.
Context {S : Type} `{!Store S} `{!PromiseObjects S}.
Implicit Types (w : World S) (i : string).

(** *** Host primitives *)

(** [dispatch(action)]: the store folds the action into its state. *)
Definition dispatch (o : Origin) (a : AsyncAction) : M S unit :=
  modify (λ w,
    {| store := reducer (store w) a;
       pendingCleanCallbacks := pendingCleanCallbacks w;
       asyncCallCache := asyncCallCache w; cachePrototype := cachePrototype w;
       nextAsyncId := nextAsyncId w;
       timers := timers w; nextTimer := nextTimer w; chains := chains w;
       nextPromise := nextPromise w; now := now w;
       log := EDispatch o a :: log w |}).

(** [clearTimeout(h)]: cancels the timeout if it is armed; a handle that
    has already fired or was already cleared is ignored, and so is an
    argument that is no handle ([None]): [undefined], or what
    [pendingCleanCallbacks] inherits from [Object.prototype] (an object or
    a function). *)
Definition clearTimeout (h : option nat) : M S unit :=
  modify (λ w,
    {| store := store w; pendingCleanCallbacks := pendingCleanCallbacks w;
       asyncCallCache := asyncCallCache w; cachePrototype := cachePrototype w;
       nextAsyncId := nextAsyncId w;
       timers := match h with Some h => delete h (timers w) | None => timers w end;
       nextTimer := nextTimer w; chains := chains w;
       nextPromise := nextPromise w; now := now w;
       log := EClearTimeout h :: log w |}).

(** [setTimeout(() => dispatch(actionCreators.cleanAsyncState(i)), delay)],
    called from the chain of handle [p]: arms a new timeout and returns its
    handle. *)
Definition setTimeout (p : nat) (i : string) (delay : N) : M S nat :=
  λ w, (Return (nextTimer w),
    {| store := store w; pendingCleanCallbacks := pendingCleanCallbacks w;
       asyncCallCache := asyncCallCache w; cachePrototype := cachePrototype w;
       nextAsyncId := nextAsyncId w;
       timers := <[nextTimer w := {| timer_id := i; due := now w + delay |}]> (timers w);
       nextTimer := Datatypes.S (nextTimer w); chains := chains w;
       nextPromise := nextPromise w; now := now w;
       log := ESetTimeout p (nextTimer w) i delay :: log w |}).

Definition console_warn (msg : string) : M S unit :=
  modify (λ w,
    {| store := store w; pendingCleanCallbacks := pendingCleanCallbacks w;
       asyncCallCache := asyncCallCache w; cachePrototype := cachePrototype w;
       nextAsyncId := nextAsyncId w;
       timers := timers w; nextTimer := nextTimer w; chains := chains w;
       nextPromise := nextPromise w; now := now w;
       log := EWarn msg :: log w |}).

(** Updates of the two module-level objects. *)
Definition set_pendingCleanCallbacks (f : gmap string nat → gmap string nat) : M S unit :=
  modify (λ w,
    {| store := store w; pendingCleanCallbacks := f (pendingCleanCallbacks w);
       asyncCallCache := asyncCallCache w; cachePrototype := cachePrototype w;
       nextAsyncId := nextAsyncId w;
       timers := timers w; nextTimer := nextTimer w; chains := chains w;
       nextPromise := nextPromise w; now := now w; log := log w |}).

Definition set_asyncCallCache
    (f : gmap string AsyncCallPromise → gmap string AsyncCallPromise) : M S unit :=
  modify (λ w,
    {| store := store w; pendingCleanCallbacks := pendingCleanCallbacks w;
       asyncCallCache := f (asyncCallCache w); cachePrototype := cachePrototype w;
       nextAsyncId := nextAsyncId w;
       timers := timers w; nextTimer := nextTimer w; chains := chains w;
       nextPromise := nextPromise w; now := now w; log := log w |}).

Definition set_cachePrototype (a : AsyncCallPromise) : M S unit :=
  modify (λ w,
    {| store := store w; pendingCleanCallbacks := pendingCleanCallbacks w;
       asyncCallCache := asyncCallCache w; cachePrototype := Some a;
       nextAsyncId := nextAsyncId w;
       timers := timers w; nextTimer := nextTimer w; chains := chains w;
       nextPromise := nextPromise w; now := now w; log := log w |}).

(** [pendingCleanCallbacks[i] = h], [h] a number.  Under "__proto__",
    unless the object holds a property of that name, the assignment goes to
    the accessor of [Object.prototype], which ignores a number: nothing is
    recorded. *)
Definition assign_pendingCleanCallbacks (i : string) (h : nat) : M S unit :=
  held ← gets (λ w, pendingCleanCallbacks w !! i);
  if decide (i = "__proto__" ∧ held = None) then mret tt
  else set_pendingCleanCallbacks (<[i := h]>).

(** [delete pendingCleanCallbacks[i]]: removes the property the object
    holds, if any. *)
Definition delete_pendingCleanCallbacks (i : string) : M S unit :=
  set_pendingCleanCallbacks (delete i).

(** [asyncCallCache[i] = a], [a] a promise object.  Under "__proto__",
    unless the object holds a property of that name, the assignment goes to
    the accessor of [Object.prototype]: [a] becomes the prototype of the
    cache and no property is created.  Under any other name the cache gets
    or updates a property of its own (what a promise object answers are
    ordinary writable properties, which an assignment shadows). *)
Definition assign_asyncCallCache (i : string) (a : AsyncCallPromise) : M S unit :=
  held ← gets (λ w, asyncCallCache w !! i);
  if decide (i = "__proto__" ∧ held = None) then set_cachePrototype a
  else set_asyncCallCache (<[i := a]>).

(** [delete asyncCallCache[i]]: removes the property the object holds, if
    any; the prototype is not touched. *)
Definition delete_asyncCallCache (i : string) : M S unit :=
  set_asyncCallCache (delete i).

(** [asyncCallCache[i]]; [None] is [undefined].  A property the object
    holds is a handle.  Otherwise the prototype chain answers: "__proto__"
    yields the prototype itself (the handle that was made the prototype, or
    [Object.prototype]); the other names of [Object.prototype] yield its
    methods; and when a handle is the prototype, the names the handle
    answers yield what the handle holds. *)
Definition asyncCallCache_get (i : string) (w : World S) : option Returned :=
  match asyncCallCache w !! i with
  | Some a => Some (Handle a)
  | None =>
      if decide (i = "__proto__") then
        match cachePrototype w with
        | Some a => Some (Handle a)
        | None => Some (Inherited i)
        end
      else if decide (i ∈ Object_prototype) then Some (Inherited i)
      else
        match cachePrototype w with
        | Some a =>
            if decide (i = "id") then Some (Inherited i)
            else if handle_answers w a i then Some (Inherited i)
            else None
        | None => None
        end
  end.

(** *** The module-level constants and [genAsyncId] *)

Definition CLEAN_DELAY : N := 1000.

(** [n + 1] on a JavaScript number holding a non-negative integer: exact
    below 2^53; at 2^53 the sum is not representable and rounds back to
    2^53. *)
Definition MAX_EXACT : N := 2 ^ 53.
Definition js_succ (n : N) : N := if decide (n < MAX_EXACT) then n + 1 else n.

(** [`async-${nextAsyncId++}`] *)
Definition genAsyncId : M S string :=
  λ w, (Return ("async-" +:+ pretty (nextAsyncId w)),
    {| store := store w; pendingCleanCallbacks := pendingCleanCallbacks w;
       asyncCallCache := asyncCallCache w; cachePrototype := cachePrototype w;
       nextAsyncId := js_succ (nextAsyncId w);
       timers := timers w; nextTimer := nextTimer w; chains := chains w;
       nextPromise := nextPromise w; now := now w; log := log w |}).

(** *** The action creators *)

Definition cleanAsyncState (i : string) : M S AsyncAction :=
  h ← gets (λ w, pendingCleanCallbacks w !! i);
  clearTimeout h;;
  delete_pendingCleanCallbacks i;;
  mret (metaAction CLEAN_ASYNC_STATE i).

Definition releaseAsyncState (i : string) : AsyncAction := metaAction RELEASE_ASYNC_STATE i.
Definition resetAsyncState (i : string) : AsyncAction := metaAction RESET_ASYNC_STATE i.
Definition retainAsyncState (i : string) : AsyncAction := metaAction RETAIN_ASYNC_STATE i.
Definition finishAsync (i : string) : AsyncAction := metaAction ASYNC_FINISHED i.
Definition resolveAsync (i : string) : AsyncAction := metaAction ASYNC_RESOLVED i.
Definition rejectAsync (i : string) (err : Error) : AsyncAction :=
  {| error := true; meta := {| asyncId := i |}; payload := Some err;
     type := ASYNC_REJECTED |}.

(** The callbacks [startAsync] attaches to the operation, for the call with
    id [i] and handle [p]. *)
Definition onFulfilled (p : nat) (i : string) (res : Value) : M S Value :=
  dispatch (ByCall p) (resolveAsync i);;
  mret res.

Definition onRejected (p : nat) (i : string) (err : Error) : M S Value :=
  dispatch (ByCall p) (rejectAsync i err);;
  throw err.

Definition onFinally (p : nat) (i : string) : M S unit :=
  delete_asyncCallCache i;;
  dispatch (ByCall p) (finishAsync i);;
  h ← setTimeout p i CLEAN_DELAY;
  assign_pendingCleanCallbacks i h.

(** [b.then(..).catch(..).finally(..)]: builds the chain and returns the
    identity of its last promise. *)
Definition chain (i : string) : M S nat :=
  λ w, (Return (nextPromise w),
    {| store := store w; pendingCleanCallbacks := pendingCleanCallbacks w;
       asyncCallCache := asyncCallCache w; cachePrototype := cachePrototype w;
       nextAsyncId := nextAsyncId w;
       timers := timers w; nextTimer := nextTimer w;
       chains := <[nextPromise w := {| chain_id := i; chain_phase := Running |}]> (chains w);
       nextPromise := Datatypes.S (nextPromise w); now := now w; log := log w |}).

(** [isPromise(thunk) ? thunk : thunk()] *)
Definition invoke (p : nat) (thunk : Work) : M S unit :=
  modify (λ w,
    {| store := store w; pendingCleanCallbacks := pendingCleanCallbacks w;
       asyncCallCache := asyncCallCache w; cachePrototype := cachePrototype w;
       nextAsyncId := nextAsyncId w;
       timers := timers w; nextTimer := nextTimer w; chains := chains w;
       nextPromise := nextPromise w; now := now w;
       log := EInvoke p thunk :: log w |}).

Definition missing_from_cache (i : string) : Error :=
  "Attempted to fork off an existing async call (" +:+ i +:+
  ") but promise is missing from cache.".

Definition promise_passed_warning (i : string) : string :=
  "A promise was passed directly to startAsync while an existing async call was pending for "
  +:+ i +:+ ", which can lead to unexpected behavior. Either wait for the existing call to "
  +:+ "finish, cancel it, or pass a thunk instead. Passing a thunk will completely prevent "
  +:+ "the async call from starting if it's already pending.".

(** [asyncId || genAsyncId()]: an absent id and the empty string are both
    falsy. *)
Definition resolveId (asyncId : option string) : M S string :=
  match asyncId with
  | Some i => if decide (i = "") then genAsyncId else mret i
  | None => genAsyncId
  end.

(** In the PENDING branch [existingPromise] is whatever [asyncCallCache[id]]
    yields; anything but [undefined] is returned as it is. *)
Definition startAsync (thunk : Work) (asyncId : option string) : M S Returned :=
  i ← resolveId asyncId;
  existingState ← gets (λ w, selectAsyncStatus (store w) i);
  if decide (existingState = PENDING) then
    existingPromise ← gets (asyncCallCache_get i);
    match existingPromise with
    | None => throw (missing_from_cache i)
    | Some existingPromise =>
        (if isPromise thunk then console_warn (promise_passed_warning i) else mret tt);;
        mret existingPromise
    end
  else
    p ← gets nextPromise;
    dispatch (ByCall p) (metaAction ASYNC_STARTED i);;
    h ← gets (λ w, pendingCleanCallbacks w !! i);
    clearTimeout h;;
    invoke p thunk;;
    b ← chain i;
    let a := {| promise := b; id := i |} in
    assign_asyncCallCache i a;;
    mret (Handle a).

End ActionCreators.

(** ** The event loop

    One step is one job of the host: a call of the public interface by the
    code that uses the tracker, a promise reaction of a chain built by
    [startAsync], or a timeout that fires.  A step that is not enabled (a
    reaction of a chain that is not in the right phase, a timeout that is not
    armed or not due) yields [None]. *)
Inductive Op :=
  | Start (thunk : Work) (asyncId : option string)   (* dispatch(startAsync(thunk, asyncId)) *)
  | Retain (i : string)                              (* dispatch(retainAsyncState(i)) *)
  | Release (i : string)
  | Reset (i : string)
  | Clean (i : string)                               (* dispatch(cleanAsyncState(i)) *)
  | Finish (i : string)                              (* dispatch(finishAsync(i)) *)
  | Resolve (i : string)
  | Reject (i : string) (err : Error)
  | Settle (p : nat) (o : Outcome)                   (* the operation behind handle p settles *)
  | Finally (p : nat)                                (* the finally reaction of handle p *)
  | Fire (h : nat)                                   (* timeout h fires *)
  | Advance (dt : N).                                (* time passes *)

Section EventLoop.
Context {S : Type} `{!Store S} `{!PromiseObjects S}.
Implicit Types (w : World S) (i : string).

Definition set_phase (p : nat) (ph : Phase) w : World S :=
  {| store := store w; pendingCleanCallbacks := pendingCleanCallbacks w;
     asyncCallCache := asyncCallCache w; cachePrototype := cachePrototype w;
     nextAsyncId := nextAsyncId w;
     timers := timers w; nextTimer := nextTimer w;
     chains := alter (λ c, {| chain_id := chain_id c; chain_phase := ph |}) p (chains w);
     nextPromise := nextPromise w; now := now w; log := log w |}.

Definition fired (h : nat) w : World S :=
  {| store := store w; pendingCleanCallbacks := pendingCleanCallbacks w;
     asyncCallCache := asyncCallCache w; cachePrototype := cachePrototype w;
     nextAsyncId := nextAsyncId w;
     timers := delete h (timers w); nextTimer := nextTimer w;
     chains := chains w; nextPromise := nextPromise w; now := now w;
     log := log w |}.

Definition advance (dt : N) w : World S :=
  {| store := store w; pendingCleanCallbacks := pendingCleanCallbacks w;
     asyncCallCache := asyncCallCache w; cachePrototype := cachePrototype w;
     nextAsyncId := nextAsyncId w;
     timers := timers w; nextTimer := nextTimer w;
     chains := chains w; nextPromise := nextPromise w; now := now w + dt;
     log := log w |}.

(** The promise a reaction returns: fulfilled with the value the callback
    returns, rejected with what it throws. *)
Definition settled_with (c : Completion Value) : Outcome :=
  match c with Return v => Fulfilled v | Throw e => Rejected e end.

Definition step w (op : Op) : option (World S) :=
  match op with
  | Start thunk asyncId => Some (startAsync thunk asyncId w).2
  | Retain i => Some (dispatch ByCaller (retainAsyncState i) w).2
  | Release i => Some (dispatch ByCaller (releaseAsyncState i) w).2
  | Reset i => Some (dispatch ByCaller (resetAsyncState i) w).2
  | Clean i => Some ((a ← cleanAsyncState i; dispatch ByCaller a) w).2
  | Finish i => Some (dispatch ByCaller (finishAsync i) w).2
  | Resolve i => Some (dispatch ByCaller (resolveAsync i) w).2
  | Reject i err => Some (dispatch ByCaller (rejectAsync i err) w).2
  | Settle p o =>
      match chains w !! p with
      | Some {| chain_id := i; chain_phase := Running |} =>
          (* a fulfilled operation runs the then callback and skips the
             catch callback; a rejected one skips the then callback and
             runs the catch callback *)
          let '(c, w') :=
            match o with
            | Fulfilled res => onFulfilled p i res w
            | Rejected err => onRejected p i err w
            end in
          Some (set_phase p (Settled (settled_with c)) w')
      | _ => None
      end
  | Finally p =>
      match chains w !! p with
      | Some {| chain_id := i; chain_phase := Settled o |} =>
          (* the finally callback returns normally, so the handle settles
             the way the chain was settled *)
          Some (set_phase p (Done o) (onFinally p i w).2)
      | _ => None
      end
  | Fire h =>
      match timers w !! h with
      | Some t =>
          if decide (due t ≤ now w) then
            Some ((a ← cleanAsyncState (timer_id t); dispatch (ByTimer h) a) (fired h w)).2
          else None
      | None => None
      end
  | Advance dt => Some (advance dt w)
  end.

Fixpoint run w (ops : list Op) : option (World S) :=
  match ops with
  | [] => Some w
  | op :: ops => w' ← step w op; run w' ops
  end.

(** Worlds reached from [initial] by steps that satisfy [ok]. *)
Inductive reachable_by (ok : World S → Op → Prop) : World S → Prop :=
  | reachable_initial : reachable_by ok initial
  | reachable_step w op w' :
      reachable_by ok w → ok w op → step w op = Some w' → reachable_by ok w'.

Definition reachable : World S → Prop := reachable_by (λ _ _, True).

(** A chain for id [i] whose finally callback has not run yet. *)
Definition unfinished_for (i : string) (c : Chain) : Prop :=
  chain_id c = i ∧ ∀ o, chain_phase c ≠ Done o.

Global Instance unfinished_for_dec i c : Decision (unfinished_for i c).
Proof.
  unfold unfinished_for. destruct (chain_phase c) as [| o | o].
  - destruct (decide (chain_id c = i)); [left; by split | right; by intros [? _]].
  - destruct (decide (chain_id c = i)); [left; by split | right; by intros [? _]].
  - right. intros [_ Hn]. by apply (Hn o).
Defined.

(** No call for [i] is between its start and its finally callback. *)
Definition idle w (i : string) : Prop :=
  map_Forall (λ _ c, ¬ unfinished_for i c) (chains w).

(** The id a call of [startAsync] works on. *)
Definition id_of_start w (asyncId : option string) : string :=
  match (resolveId asyncId w).1 with Return i => i | Throw _ => "" end.

(** Calls for one id do not overlap: a call that [startAsync] treats as new
    is made only when every earlier call for its id has run its finally
    callback. *)
Definition no_overlap w (op : Op) : Prop :=
  match op with
  | Start _ asyncId =>
      let i := id_of_start w asyncId in
      selectAsyncStatus (store w) i = PENDING ∨ idle w i
  | _ => True
  end.

Global Instance no_overlap_dec w op : Decision (no_overlap w op).
Proof. destruct op; simpl; apply _. Defined.

Definition sequenced : World S → Prop := reachable_by no_overlap.

End EventLoop.

(** ** The status store of the specification *)

Module SpecStore.

(** Modelled from the spec: the record type of the status store
    ([AsyncCallRecord], section 3), which lives in [../reducers/async]. *)
Record AsyncCallRecord := {
  status : AsyncStatus;
  retainCount : nat;
  error : option Error
}.

Abbreviation AsyncState := (gmap string AsyncCallRecord).

(** Modelled from the spec: a record that is absent stands for an id never
    seen (status NOT_STARTED, nobody retaining it). *)
Definition absent : AsyncCallRecord :=
  {| status := NOT_STARTED; retainCount := 0; error := None |}.

Definition record_of (st : AsyncState) (i : string) : AsyncCallRecord :=
  default absent (st !! i).

(** Modelled from the spec: the selector [statusOf(state, id)] of
    [../selectors/async] (section 6); a removed record reads as
    NOT_STARTED (section 8). *)
Definition selectAsyncStatus (st : AsyncState) (i : string) : AsyncStatus :=
  status (record_of st i).

Definition terminal (s : AsyncStatus) : bool :=
  match s with RESOLVED | REJECTED | FINISHED => true | _ => false end.

Definition with_status (r : AsyncCallRecord) (s : AsyncStatus) (e : option Error) :=
  {| status := s; retainCount := retainCount r; error := e |}.

(** Modelled from the spec: the reducer of [../reducers/async], following
    the transition table of section 4.3 (an event in a state the table does
    not list leaves the record as it is), retain / release of section 4.4
    and clean of section 4.5. *)
Definition reducer (st : AsyncState) (a : AsyncAction) : AsyncState :=
  let i := asyncId (meta a) in
  let r := record_of st i in
  match type a with
  | ASYNC_STARTED =>
      match status r with
      | NOT_STARTED | FINISHED => <[i := with_status r PENDING None]> st
      | _ => st
      end
  | ASYNC_RESOLVED =>
      match status r with
      | PENDING => <[i := with_status r RESOLVED None]> st
      | _ => st
      end
  | ASYNC_REJECTED =>
      match status r with
      | PENDING => <[i := with_status r REJECTED (payload a)]> st
      | _ => st
      end
  | ASYNC_FINISHED =>
      match status r with
      | PENDING | RESOLVED | REJECTED => <[i := with_status r FINISHED None]> st
      | _ => st
      end
  | RESET_ASYNC_STATE =>
      match status r with
      | RESOLVED | REJECTED | FINISHED => <[i := with_status r NOT_STARTED None]> st
      | _ => st
      end
  | CLEAN_ASYNC_STATE => delete i st
  | RETAIN_ASYNC_STATE =>
      <[i := {| status := status r; retainCount := Datatypes.S (retainCount r);
                error := error r |}]> st
  | RELEASE_ASYNC_STATE =>
      let n := Nat.pred (retainCount r) in
      if decide (n = 0%nat ∧ terminal (status r) = true) then delete i st
      else <[i := {| status := status r; retainCount := n; error := error r |}]> st
  end.

Global Instance spec_store : Store AsyncState :=
  Build_Store AsyncState ∅ reducer selectAsyncStatus.

End SpecStore.

(** ** Reading worlds *)

Section Observations.
Context {S : Type} `{!Store S} `{!PromiseObjects S}.
Implicit Types (w : World S) (i : string).

(** The transitions emitted so far, newest first. *)
Definition transitions w : list AsyncAction :=
  omap (λ e, match e with EDispatch _ a => Some a | _ => None end) (log w).

Definition set_nextAsyncId (n : N) w : World S :=
  {| store := store w; pendingCleanCallbacks := pendingCleanCallbacks w;
     asyncCallCache := asyncCallCache w; cachePrototype := cachePrototype w;
     nextAsyncId := n;
     timers := timers w; nextTimer := nextTimer w; chains := chains w;
     nextPromise := nextPromise w; now := now w; log := log w |}.

(** At most one timeout is armed per id. *)
Definition one_timer_per_id w : Prop :=
  ∀ h1 h2 t1 t2,
    timers w !! h1 = Some t1 → timers w !! h2 = Some t2 →
    timer_id t1 = timer_id t2 → h1 = h2.

(** At most one timeout is armed for the id [i]. *)
Definition one_timer_for w (i : string) : Prop :=
  ∀ h1 h2 t1 t2,
    timers w !! h1 = Some t1 → timers w !! h2 = Some t2 →
    timer_id t1 = i → timer_id t2 = i → h1 = h2.

(** Every event of the log that satisfies [Q] comes after an event that
    satisfies [P] (the log is newest first). *)
Fixpoint preceded (P Q : Effect → Prop) (l : list Effect) : Prop :=
  match l with
  | [] => True
  | e :: older => (Q e → Exists P older) ∧ preceded P Q older
  end.

End Observations.

Ltac unfold_M :=
  unfold mbind, M_bind, mret, M_ret, gets, modify, throw in *.

Section Calls.
Context {S : Type} `{!Store S} `{!PromiseObjects S}.
Implicit Types (w : World S) (i : string).

(** What [asyncCallCache[i] = a] makes of the properties of the cache and
    of its prototype, and [pendingCleanCallbacks[i] = h] of the recorded
    handles. *)
Definition assigned_cache (i : string) (a : AsyncCallPromise) w
  : gmap string AsyncCallPromise :=
  if decide (i = "__proto__" ∧ asyncCallCache w !! i = None) then asyncCallCache w
  else <[i := a]> (asyncCallCache w).

Definition assigned_prototype (i : string) (a : AsyncCallPromise) w
  : option AsyncCallPromise :=
  if decide (i = "__proto__" ∧ asyncCallCache w !! i = None) then Some a
  else cachePrototype w.

Definition assigned_pending (i : string) (h : nat) w : gmap string nat :=
  if decide (i = "__proto__" ∧ pendingCleanCallbacks w !! i = None)
  then pendingCleanCallbacks w
  else <[i := h]> (pendingCleanCallbacks w).

(** The branch of [startAsync] that starts a new call. *)
Definition started_world (thunk : Work) (i : string) w : World S :=
  {| store := reducer (store w) (metaAction ASYNC_STARTED i);
     pendingCleanCallbacks := pendingCleanCallbacks w;
     asyncCallCache := assigned_cache i {| promise := nextPromise w; id := i |} w;
     cachePrototype := assigned_prototype i {| promise := nextPromise w; id := i |} w;
     nextAsyncId := nextAsyncId w;
     timers := match pendingCleanCallbacks w !! i with
               | Some h => delete h (timers w)
               | None => timers w
               end;
     nextTimer := nextTimer w;
     chains := <[nextPromise w := {| chain_id := i; chain_phase := Running |}]> (chains w);
     nextPromise := Datatypes.S (nextPromise w);
     now := now w;
     log := EInvoke (nextPromise w) thunk
            :: EClearTimeout (pendingCleanCallbacks w !! i)
            :: EDispatch (ByCall (nextPromise w)) (metaAction ASYNC_STARTED i)
            :: log w |}.

End Calls.

(** ** What one step does *)

Section Steps.
Context {S : Type} `{!Store S} `{!PromiseObjects S}.
Implicit Types (w : World S) (i : string).

(** The world after the then or catch callback of handle [p]. *)
Definition settled_world (p : nat) (i : string) (o : Outcome) w : World S :=
  let a := match o with
           | Fulfilled _ => resolveAsync i
           | Rejected err => rejectAsync i err
           end in
  {| store := reducer (store w) a;
     pendingCleanCallbacks := pendingCleanCallbacks w;
     asyncCallCache := asyncCallCache w; cachePrototype := cachePrototype w;
     nextAsyncId := nextAsyncId w;
     timers := timers w; nextTimer := nextTimer w;
     chains := <[p := {| chain_id := i; chain_phase := Settled o |}]> (chains w);
     nextPromise := nextPromise w; now := now w;
     log := EDispatch (ByCall p) a :: log w |}.

(** The world after the finally callback of handle [p]. *)
Definition finished_world (p : nat) (i : string) (o : Outcome) w : World S :=
  {| store := reducer (store w) (finishAsync i);
     pendingCleanCallbacks := assigned_pending i (nextTimer w) w;
     asyncCallCache := delete i (asyncCallCache w); cachePrototype := cachePrototype w;
     nextAsyncId := nextAsyncId w;
     timers := <[nextTimer w := {| timer_id := i; due := now w + CLEAN_DELAY |}]> (timers w);
     nextTimer := Datatypes.S (nextTimer w);
     chains := <[p := {| chain_id := i; chain_phase := Done o |}]> (chains w);
     nextPromise := nextPromise w; now := now w;
     log := ESetTimeout p (nextTimer w) i CLEAN_DELAY
            :: EDispatch (ByCall p) (finishAsync i) :: log w |}.

(** The world after [dispatch(cleanAsyncState(i))], dispatched by [o]. *)
Definition cleaned_world (o : Origin) (i : string) w : World S :=
  {| store := reducer (store w) (metaAction CLEAN_ASYNC_STATE i);
     pendingCleanCallbacks := delete i (pendingCleanCallbacks w);
     asyncCallCache := asyncCallCache w; cachePrototype := cachePrototype w;
     nextAsyncId := nextAsyncId w;
     timers := match pendingCleanCallbacks w !! i with
               | Some h => delete h (timers w)
               | None => timers w
               end;
     nextTimer := nextTimer w; chains := chains w;
     nextPromise := nextPromise w; now := now w;
     log := EDispatch o (metaAction CLEAN_ASYNC_STATE i)
            :: EClearTimeout (pendingCleanCallbacks w !! i) :: log w |}.

(** Every enabled step, by cases. *)
Inductive step_spec w : Op → World S → Prop :=
  | spec_join thunk asyncId i w0 a :
      resolveId asyncId w = (Return i, w0) →
      selectAsyncStatus (store w0) i = PENDING →
      asyncCallCache_get i w0 = Some a →
      step_spec w (Start thunk asyncId)
        (if isPromise thunk then (console_warn (promise_passed_warning i) w0).2 else w0)
  | spec_missing thunk asyncId i w0 :
      resolveId asyncId w = (Return i, w0) →
      selectAsyncStatus (store w0) i = PENDING →
      asyncCallCache_get i w0 = None →
      step_spec w (Start thunk asyncId) w0
  | spec_fresh thunk asyncId i w0 :
      resolveId asyncId w = (Return i, w0) →
      selectAsyncStatus (store w0) i ≠ PENDING →
      step_spec w (Start thunk asyncId) (started_world thunk i w0)
  | spec_dispatch op a :
      match op with
      | Retain i => a = retainAsyncState i
      | Release i => a = releaseAsyncState i
      | Reset i => a = resetAsyncState i
      | Finish i => a = finishAsync i
      | Resolve i => a = resolveAsync i
      | Reject i err => a = rejectAsync i err
      | _ => False
      end →
      step_spec w op (dispatch ByCaller a w).2
  | spec_clean i : step_spec w (Clean i) (cleaned_world ByCaller i w)
  | spec_settle p i o :
      chains w !! p = Some {| chain_id := i; chain_phase := Running |} →
      step_spec w (Settle p o) (settled_world p i o w)
  | spec_finally p i o :
      chains w !! p = Some {| chain_id := i; chain_phase := Settled o |} →
      step_spec w (Finally p) (finished_world p i o w)
  | spec_fire h t :
      timers w !! h = Some t → due t ≤ now w →
      step_spec w (Fire h) (cleaned_world (ByTimer h) (timer_id t) (fired h w))
  | spec_advance dt : step_spec w (Advance dt) (advance dt w).

End Steps.

(** ** Invariants of the event loop *)

Section Invariants.
Context {S : Type} `{!Store S} `{!PromiseObjects S}.
Implicit Types (w : World S) (i : string).

(** Handles are allocated in increasing order. *)
Definition fresh_handles w : Prop :=
  (∀ p c, chains w !! p = Some c → (p < nextPromise w)%nat) ∧
  (∀ h t, timers w !! h = Some t → (h < nextTimer w)%nat).

(** What holds as long as calls for one id do not overlap.  The id
    "__proto__" stands apart: the cache never holds a property of that name
    (the handle of the call becomes the prototype of the cache and stays
    it), and the handle of its timeout is never recorded. *)
Record seq_inv w : Prop := {
  seq_fresh : fresh_handles w;
  seq_one_call : ∀ i p1 p2 c1 c2,
    chains w !! p1 = Some c1 → chains w !! p2 = Some c2 →
    unfinished_for i c1 → unfinished_for i c2 → p1 = p2;
  seq_timer : ∀ h t,
    timers w !! h = Some t → timer_id t ≠ "__proto__" →
    pendingCleanCallbacks w !! timer_id t = Some h ∧ idle w (timer_id t);
  seq_cache : ∀ i a,
    asyncCallCache w !! i = Some a ↔
    i ≠ "__proto__" ∧ id a = i ∧
    ∃ c, chains w !! promise a = Some c ∧ unfinished_for i c;
  seq_proto : ∀ p c,
    chains w !! p = Some c → unfinished_for "__proto__" c →
    cachePrototype w = Some {| promise := p; id := "__proto__" |}
}.

(** Two worlds with the same handles, timeouts, chains and cache. *)
Definition same_tracking w w' : Prop :=
  pendingCleanCallbacks w' = pendingCleanCallbacks w ∧
  asyncCallCache w' = asyncCallCache w ∧
  timers w' = timers w ∧ nextTimer w' = nextTimer w ∧
  chains w' = chains w ∧ nextPromise w' = nextPromise w ∧
  cachePrototype w' = cachePrototype w.

End Invariants.

(** ** The history of one call *)

Section History.
Context {S : Type} `{!Store S} `{!PromiseObjects S}.
Implicit Types (w : World S) (i : string).

(** The events of the chain of handle [p]. *)
Definition own (p : nat) (e : Effect) : bool :=
  match e with
  | EDispatch (ByCall q) _ | EInvoke q _ | ESetTimeout q _ _ _ => bool_decide (q = p)
  | _ => false
  end.

(** The events of the chain of handle [p], oldest first. *)
Definition history (p : nat) w : list Effect :=
  reverse (List.filter (own p) (log w)).

Definition outcome_action (i : string) (o : Outcome) : AsyncAction :=
  match o with
  | Fulfilled _ => resolveAsync i
  | Rejected err => rejectAsync i err
  end.

(** What the chain of handle [p], for id [i], has done when it is in phase
    [ph], oldest first. *)
Definition expected (p : nat) (i : string) (thunk : Work) (h : nat) (ph : Phase)
  : list Effect :=
  [EDispatch (ByCall p) (metaAction ASYNC_STARTED i); EInvoke p thunk] ++
  match ph with
  | Running => []
  | Settled o => [EDispatch (ByCall p) (outcome_action i o)]
  | Done o => [EDispatch (ByCall p) (outcome_action i o);
               EDispatch (ByCall p) (finishAsync i);
               ESetTimeout p h i CLEAN_DELAY]
  end.

(** The timeout [h] was armed for the id that action [a] cleans. *)
Definition armed_for (h : nat) (a : AsyncAction) (e : Effect) : Prop :=
  a = metaAction CLEAN_ASYNC_STATE (asyncId (meta a)) ∧
  ∃ q, e = ESetTimeout q h (asyncId (meta a)) CLEAN_DELAY.

Definition fired_with (h : nat) (a : AsyncAction) (e : Effect) : Prop :=
  e = EDispatch (ByTimer h) a.

Record hist_inv w : Prop := {
  hist_fresh : ∀ p, (nextPromise w ≤ p)%nat → List.filter (own p) (log w) = [];
  hist_chain : ∀ p c, chains w !! p = Some c →
    ∃ thunk h, history p w = expected p (chain_id c) thunk h (chain_phase c);
  hist_timer : ∀ h t, timers w !! h = Some t →
    ∃ q, ESetTimeout q h (timer_id t) CLEAN_DELAY ∈ log w;
  hist_order : ∀ h a, preceded (armed_for h a) (fired_with h a) (log w)
}.

End History.

(** ** What the tracker needs of the store *)

(** Only the started transition makes a status PENDING, and the finished
    transition never leaves one PENDING. *)
Class StoreLaws (S : Type) `{!Store S} : Prop := {
  initial_not_pending : ∀ i, selectAsyncStatus initialState i ≠ PENDING;
  pending_by_started : ∀ (s : S) a i,
    selectAsyncStatus (reducer s a) i = PENDING →
    selectAsyncStatus s i = PENDING ∨ (type a = ASYNC_STARTED ∧ asyncId (meta a) = i);
  finished_not_pending : ∀ (s : S) i,
    selectAsyncStatus (reducer s (finishAsync i)) i ≠ PENDING
}.

Section CacheAndTimers.
Context {S : Type} `{!Store S} `{!PromiseObjects S}.
Implicit Types (w : World S) (i : string).

Definition pend_inv w : Prop :=
  ∀ i, selectAsyncStatus (store w) i = PENDING →
       ∃ p c, chains w !! p = Some c ∧ unfinished_for i c.

End CacheAndTimers.

Section Runs.
Context {S : Type} `{!Store S} `{!PromiseObjects S}.
Implicit Types (w : World S) (i : string).

(** [run], refusing a start that overlaps an earlier call for its id. *)
Fixpoint run_sequenced w (ops : list Op) : option (World S) :=
  match ops with
  | [] => Some w
  | op :: ops =>
      if decide (no_overlap w op) then w' ← step w op; run_sequenced w' ops
      else None
  end.

End Runs.

(** ** Concrete runs, on the store of the specification *)

Module Scenarios.
Import SpecStore.

(** For the runs below: promise objects that answer to the methods every
    promise has. *)
Global Instance promise_methods : PromiseObjects AsyncState :=
  {| handle_answers _ _ k := bool_decide (k ∈ ["then"; "catch"; "finally"]) |}.

Definition after (ops : list Op) : World AsyncState :=
  default initial (run initial ops).

(** One call with an explicit id and a thunk, still running. *)
Definition one_call : list Op := [Start (AThunk 0) (Some "x")].

(** One call whose operation has been rejected, before its finally
    callback. *)
Definition one_rejected : list Op :=
  [Start (AThunk 0) (Some "x"); Settle 0 (Rejected "boom")].

(** One call run to its end. *)
Definition one_finished : list Op :=
  [Start (AThunk 0) (Some "x"); Settle 0 (Fulfilled "Ana"); Finally 0].


(** A retained call whose operation has been fulfilled, before its finally
    callback. *)
Definition retained_resolved : list Op :=
  [Retain "x"; Start (AThunk 0) (Some "x"); Settle 0 (Fulfilled "Ana")].

(** A retained call run to its end. *)
Definition retained_finished : list Op :=
  [Retain "x"; Start (AThunk 0) (Some "x"); Settle 0 (Fulfilled "Ana"); Finally 0].

(** A retained call that is released between its resolved transition and
    its finally callback. *)
Definition released_early : list Op :=
  [Retain "x"; Start (AThunk 0) (Some "x"); Settle 0 (Fulfilled "Ana"); Release "x"].

(** A second call for the id, made once the first is resolved but before
    its finally callback; both run to their end. *)
Definition two_overlapping : list Op :=
  [Start (AThunk 0) (Some "x"); Settle 0 (Fulfilled "Ana");
   Start (AThunk 1) (Some "x"); Finally 0;
   Settle 1 (Fulfilled "Bob"); Finally 1].

(** As above; then "x" is cleaned by hand, and a second later the timeout
    of the first call fires. *)
Definition cleaned_after_overlap : list Op :=
  [Start (AThunk 0) (Some "x"); Settle 0 (Fulfilled "Ana");
   Start (AThunk 1) (Some "x"); Finally 0;
   Settle 1 (Fulfilled "Bob"); Finally 1;
   Clean "x"; Advance 1000; Fire 0].


(** A second call for the id, made after the record of the first, still
    running, was cleaned by hand; both run to their end, one after the
    other. *)
Definition two_overlapping_after_clean : list Op :=
  [Start (AThunk 0) (Some "x"); Clean "x"; Start (AThunk 1) (Some "x");
   Settle 0 (Fulfilled "Ana"); Finally 0;
   Settle 1 (Fulfilled "Bob"); Finally 1].

(** As above up to the end of the first call; its timeout then fires
    while the second call is still running. *)
Definition stale_timer_fires : list Op :=
  [Start (AThunk 0) (Some "x"); Clean "x"; Start (AThunk 1) (Some "x");
   Settle 0 (Fulfilled "Ana"); Finally 0; Advance 1000; Fire 0].

(** A store that reports PENDING for "x" while nothing is cached. *)
Definition desynchronized : World AsyncState :=
  (dispatch ByCaller (metaAction ASYNC_STARTED "x") initial).2.

(** A store that reports PENDING for "constructor" while nothing is
    cached. *)
Definition desynchronized_constructor : World AsyncState :=
  (dispatch ByCaller (metaAction ASYNC_STARTED "constructor") initial).2.

(** One call under the id "__proto__", run to its end. *)
Definition proto_finished : list Op :=
  [Start (AThunk 0) (Some "__proto__"); Settle 0 (Fulfilled "Ana"); Finally 0].

(** Two calls under the id "__proto__", one after the other, each run to
    its end. *)
Definition proto_twice : list Op :=
  [Start (AThunk 0) (Some "__proto__"); Settle 0 (Fulfilled "Ana"); Finally 0;
   Start (AThunk 1) (Some "__proto__"); Settle 1 (Fulfilled "Bob"); Finally 1].

End Scenarios.

(** ** Bookkeeping across ids and runs *)

Section Bookkeeping.
Context {S : Type} `{!Store S} `{!PromiseObjects S}.
Implicit Types (w : World S) (i : string).

(** A call of [startAsync] that falls back on [genAsyncId]: no id, or the
    empty string. *)
Definition generates (op : Op) : bool :=
  match op with
  | Start _ None => true
  | Start _ (Some i) => bool_decide (i = "")
  | _ => false
  end.

(** How many calls of a run fall back on [genAsyncId]. *)
Definition generated (ops : list Op) : nat := length (List.filter generates ops).

(** The id an operation works on: the id given to an action creator, the id
    of the call a promise reaction belongs to, the id captured by the
    callback of a timeout. *)
Definition subject w (op : Op) : option string :=
  match op with
  | Start _ asyncId => Some (id_of_start w asyncId)
  | Retain i | Release i | Reset i | Clean i | Finish i | Resolve i | Reject i _ => Some i
  | Settle p _ | Finally p => chain_id <$> chains w !! p
  | Fire h => timer_id <$> timers w !! h
  | Advance _ => None
  end.

(** What the tracker holds for id [j] is the same in [w] and [w']: its cache
    entry, its recorded timeout handle, the timeouts armed for it and the
    chains built for it; and the prototype of the cache is the same. *)
Definition untouched (j : string) w w' : Prop :=
  cachePrototype w' = cachePrototype w ∧
  asyncCallCache w' !! j = asyncCallCache w !! j ∧
  pendingCleanCallbacks w' !! j = pendingCleanCallbacks w !! j ∧
  (∀ h t, timer_id t = j → (timers w' !! h = Some t ↔ timers w !! h = Some t)) ∧
  (∀ p c, chain_id c = j → (chains w' !! p = Some c ↔ chains w !! p = Some c)).

(** Recorded handles were handed out by [setTimeout], and a recorded handle
    that is still armed is a timeout for the id it is recorded under. *)
Record timers_wf w : Prop := {
  wf_fresh : fresh_handles w;
  wf_recorded : ∀ i h, pendingCleanCallbacks w !! i = Some h → (h < nextTimer w)%nat;
  wf_owner : ∀ i h t,
    pendingCleanCallbacks w !! i = Some h → timers w !! h = Some t → timer_id t = i
}.

(** The handle [a] carries the id [i], which is not the empty string, and
    stands for a chain built for that id. *)
Definition stands_for w (i : string) (a : AsyncCallPromise) : Prop :=
  id a = i ∧ i ≠ "" ∧ ∃ c, chains w !! promise a = Some c ∧ chain_id c = i.

(** Every handle the cache holds stands for a call for the id it is held
    under, and a handle that has become the prototype of the cache stands
    for a call for "__proto__". *)
Definition cache_wf w : Prop :=
  (∀ i a, asyncCallCache w !! i = Some a → stands_for w i a) ∧
  (∀ a, cachePrototype w = Some a → stands_for w "__proto__" a).

End Bookkeeping.

(** Further runs. *)

Module MoreScenarios.
Import SpecStore Scenarios.

(** A caller starts a call under an id of the form the generator uses. *)
Definition explicit_async0 : list Op := [Start (AThunk 0) (Some "async-0")].

(** Calls without an id, with an id and with the empty string. *)
Definition mixed_ids : list Op :=
  [Start (AThunk 0) None; Start (AThunk 1) (Some "x"); Start (AThunk 2) (Some "")].

End MoreScenarios.

(** * Properties *)

Section EventLoopFacts.
Context {S : Type} `{!Store S} `{!PromiseObjects S}.
Implicit Types (w : World S) (i : string).

Lemma reachable_by_run (ok : World S → Op → Prop) w ops w' :
  reachable_by ok w →
  (∀ v op, ok v op) →
  run w ops = Some w' → reachable_by ok w'.
Proof.
  intros Hw Hok. revert w Hw. induction ops as [| op ops IH]; simpl; intros w Hw Hr.
  - by inversion Hr; subst.
  - destruct (step w op) as [w1 |] eqn:E; simpl in Hr; [| done].
    eapply IH; [| done]. by econstructor.
Qed.

End EventLoopFacts.

Section CallsFacts.
Context {S : Type} `{!Store S} `{!PromiseObjects S}.
Implicit Types (w : World S) (i : string).

Lemma resolveId_explicit w i : i ≠ "" → resolveId (Some i) w = (Return i, w).
Proof. intros Hi. unfold resolveId. by destruct (decide (i = "")). Qed.

Lemma resolveId_cases w asyncId :
  (∃ i, asyncId = Some i ∧ i ≠ "" ∧ resolveId asyncId w = (Return i, w)) ∨
  ((asyncId = None ∨ asyncId = Some "") ∧
   resolveId asyncId w =
     (Return ("async-" +:+ pretty (nextAsyncId w)),
      set_nextAsyncId (js_succ (nextAsyncId w)) w)).
Proof.
  destruct asyncId as [i |].
  - destruct (decide (i = "")) as [-> | Hi].
    + right. split; [by right | done].
    + left. exists i. by rewrite resolveId_explicit.
  - right. split; [by left | done].
Qed.

(** *** What the cache yields *)

Lemma asyncCallCache_get_Handle w i a :
  asyncCallCache_get i w = Some (Handle a) ↔
  asyncCallCache w !! i = Some a ∨
  (asyncCallCache w !! i = None ∧ i = "__proto__" ∧ cachePrototype w = Some a).
Proof.
  unfold asyncCallCache_get.
  destruct (asyncCallCache w !! i) as [b |] eqn:Hb.
  - split; [intros; simplify_eq; by left | intros [? | [? _]]; by simplify_eq].
  - destruct (decide (i = "__proto__")) as [-> | Hi].
    + destruct (cachePrototype w) as [b |].
      * split; [intros; simplify_eq; by right | intros [? | (_ & _ & ?)]; by simplify_eq].
      * split; [done | intros [? | (_ & _ & ?)]; done].
    + split; [| intros [? | (_ & ? & _)]; done].
      destruct (decide (i ∈ Object_prototype)); [done |].
      destruct (cachePrototype w); [| done].
      destruct (decide (i = "id")); [done |]. by destruct (handle_answers w a0 i).
Qed.

Lemma asyncCallCache_get_held w i a :
  asyncCallCache w !! i = Some a → asyncCallCache_get i w = Some (Handle a).
Proof. intros Ha. apply asyncCallCache_get_Handle. by left. Qed.

(** Under an id other than "__proto__" the cache yields a handle exactly
    when it holds one under that id. *)
Lemma asyncCallCache_get_plain w i a :
  i ≠ "__proto__" →
  asyncCallCache_get i w = Some (Handle a) ↔ asyncCallCache w !! i = Some a.
Proof.
  intros Hi. rewrite asyncCallCache_get_Handle.
  split; [intros [? | (_ & ? & _)]; done | by left].
Qed.

(** For a name of [Object.prototype] the cache never yields [undefined]. *)
Lemma asyncCallCache_get_inherited w i :
  i ∈ Object_prototype → asyncCallCache w !! i = None →
  ∃ v, asyncCallCache_get i w = Some v ∧ (i ≠ "__proto__" → v = Inherited i).
Proof.
  intros Hi Hc. unfold asyncCallCache_get. rewrite Hc.
  destruct (decide (i = "__proto__")) as [-> | Hne].
  - destruct (cachePrototype w); (eexists; split; [done |]); intros Hne; by destruct Hne.
  - rewrite decide_True by done. eauto.
Qed.

Lemma asyncCallCache_get_undefined w i :
  asyncCallCache_get i w = None →
  asyncCallCache w !! i = None ∧ i ∉ Object_prototype.
Proof.
  unfold asyncCallCache_get. destruct (asyncCallCache w !! i); [done |].
  destruct (decide (i = "__proto__")); [by destruct (cachePrototype w) |].
  by destruct (decide (i ∈ Object_prototype)).
Qed.

Lemma assigned_cache_plain w i a :
  i ≠ "__proto__" →
  assigned_cache i a w = <[i := a]> (asyncCallCache w) ∧
  assigned_prototype i a w = cachePrototype w.
Proof.
  intros Hi. unfold assigned_cache, assigned_prototype.
  rewrite !decide_False; [done | by intros [? _] ..].
Qed.

Lemma assigned_pending_plain w i h :
  i ≠ "__proto__" → assigned_pending i h w = <[i := h]> (pendingCleanCallbacks w).
Proof. intros Hi. unfold assigned_pending. rewrite decide_False; [done | by intros [? _]]. Qed.

(** What the cache holds under [j] once [asyncCallCache[i] = a] was done. *)
Lemma lookup_assigned_cache w i a j :
  assigned_cache i a w !! j =
  if decide (i = j ∧ ¬ (i = "__proto__" ∧ asyncCallCache w !! i = None))
  then Some a else asyncCallCache w !! j.
Proof.
  unfold assigned_cache. destruct (decide (i = "__proto__" ∧ asyncCallCache w !! i = None)).
  - rewrite decide_False; [done | by intros [_ ?]].
  - rewrite lookup_insert. destruct (decide (i = j)) as [-> | Hne].
    + by rewrite decide_True.
    + rewrite decide_False; [done | by intros [? _]].
Qed.

Lemma lookup_assigned_pending w i h j :
  assigned_pending i h w !! j =
  if decide (i = j ∧ ¬ (i = "__proto__" ∧ pendingCleanCallbacks w !! i = None))
  then Some h else pendingCleanCallbacks w !! j.
Proof.
  unfold assigned_pending.
  destruct (decide (i = "__proto__" ∧ pendingCleanCallbacks w !! i = None)).
  - rewrite decide_False; [done | by intros [_ ?]].
  - rewrite lookup_insert. destruct (decide (i = j)) as [-> | Hne].
    + by rewrite decide_True.
    + rewrite decide_False; [done | by intros [? _]].
Qed.

(** The cache yields the handle that was assigned last under the id. *)
Lemma asyncCallCache_get_started w thunk i :
  asyncCallCache_get i (started_world thunk i w)
  = Some (Handle {| promise := nextPromise w; id := i |}).
Proof.
  apply asyncCallCache_get_Handle. simpl.
  unfold assigned_cache, assigned_prototype.
  destruct (decide (i = "__proto__" ∧ asyncCallCache w !! i = None)) as [[-> Hc] | Hn].
  - right. done.
  - left. apply lookup_insert_eq.
Qed.

(** *** The branches of [startAsync] *)

(** The joining branch of [startAsync]. *)
Lemma startAsync_join w thunk asyncId i w0 a :
  resolveId asyncId w = (Return i, w0) →
  selectAsyncStatus (store w0) i = PENDING →
  asyncCallCache_get i w0 = Some a →
  startAsync thunk asyncId w =
    (Return a,
     if isPromise thunk then (console_warn (promise_passed_warning i) w0).2 else w0).
Proof.
  intros Hid Hst Hc. unfold startAsync. unfold_M. rewrite Hid. simpl.
  rewrite Hst. simpl. rewrite Hc. by destruct thunk.
Qed.

Lemma startAsync_fresh w thunk asyncId i w0 :
  resolveId asyncId w = (Return i, w0) →
  selectAsyncStatus (store w0) i ≠ PENDING →
  startAsync thunk asyncId w =
    (Return (Handle {| promise := nextPromise w0; id := i |}), started_world thunk i w0).
Proof.
  intros Hid Hst. unfold startAsync. unfold_M. rewrite Hid. simpl.
  destruct (decide (selectAsyncStatus (store w0) i = PENDING)); [done |].
  unfold assign_asyncCallCache, started_world, assigned_cache, assigned_prototype.
  unfold_M. simpl.
  by destruct (decide (i = "__proto__" ∧ asyncCallCache w0 !! i = None)).
Qed.

(** A new call is tracked: its handle stands for a chain that waits for the
    operation to settle. *)
Lemma startAsync_tracks w thunk asyncId i w0 :
  resolveId asyncId w = (Return i, w0) →
  selectAsyncStatus (store w0) i ≠ PENDING →
  ∃ a w', startAsync thunk asyncId w = (Return (Handle a), w') ∧
    chains w' !! promise a = Some {| chain_id := id a; chain_phase := Running |}.
Proof.
  intros Hid Hst. eexists _, _. split; [by apply startAsync_fresh |].
  simpl. apply lookup_insert_eq.
Qed.

Lemma startAsync_missing w thunk asyncId i w0 :
  resolveId asyncId w = (Return i, w0) →
  selectAsyncStatus (store w0) i = PENDING →
  asyncCallCache_get i w0 = None →
  startAsync thunk asyncId w = (Throw (missing_from_cache i), w0).
Proof.
  intros Hid Hst Hc. unfold startAsync. unfold_M. rewrite Hid. simpl.
  rewrite Hst. simpl. by rewrite Hc.
Qed.

(** C1. A call of [startAsync] with an explicit (non-empty) id whose
    status is PENDING and whose id is in [asyncCallCache] returns the cached
    promise itself and emits no transition: the world is left as it was,
    but for the warning printed when a promise rather than a thunk was
    passed.  In particular, when a call with a thunk and an explicit id has
    returned a handle and the status of the id is PENDING, the same call
    made again returns the same handle. *)
Theorem startAsync_pending_returns_cached w i :
  i ≠ "" →
  selectAsyncStatus (store w) i = PENDING →
  (∀ thunk existingPromise,
      asyncCallCache w !! i = Some existingPromise →
      let w' := (startAsync thunk (Some i) w).2 in
      (startAsync thunk (Some i) w).1 = Return (Handle existingPromise) ∧
      transitions w' = transitions w ∧
      store w' = store w ∧
      w' = (if isPromise thunk
            then (console_warn (promise_passed_warning i) w).2 else w)) ∧
  (∀ w0 t a,
      startAsync (AThunk t) (Some i) w0 = (Return a, w) →
      startAsync (AThunk t) (Some i) w = (Return a, w)).
Proof.
  intros Hi Hst. split.
  - intros thunk a Ha. apply asyncCallCache_get_held in Ha.
    rewrite (startAsync_join w thunk (Some i) i w (Handle a));
      auto using resolveId_explicit.
    by destruct thunk.
  - intros w0 t a Hfirst.
    assert (asyncCallCache_get i w = Some a) as Ha.
    { pose proof (resolveId_explicit w0 i Hi) as Hid.
      destruct (decide (selectAsyncStatus (store w0) i = PENDING)) as [Hp | Hp].
      - destruct (asyncCallCache_get i w0) as [b |] eqn:Hb.
        + rewrite (startAsync_join w0 _ _ i w0 b) in Hfirst by done.
          simpl in Hfirst. by simplify_eq.
        + by rewrite (startAsync_missing w0 _ _ i w0) in Hfirst.
      - rewrite (startAsync_fresh w0 _ _ i w0) in Hfirst by done.
        simplify_eq. apply asyncCallCache_get_started. }
    by rewrite (startAsync_join w (AThunk t) (Some i) i w a);
      auto using resolveId_explicit.
Qed.

(** What the check of the PENDING branch does where it works: when the
    cache yields [undefined] for the id, [startAsync] throws; no handle is
    returned, no transition is emitted and, but for the id counter when the
    id was generated, the world is left as it was. *)
Lemma startAsync_pending_undefined_throws w thunk asyncId :
  let i := id_of_start w asyncId in
  selectAsyncStatus (store w) i = PENDING →
  asyncCallCache_get i (resolveId asyncId w).2 = None →
  let w' := (startAsync thunk asyncId w).2 in
  (startAsync thunk asyncId w).1 = Throw (missing_from_cache i) ∧
  transitions w' = transitions w ∧
  w' = set_nextAsyncId (nextAsyncId w') w.
Proof.
  intros i Hst Hc. subst i. unfold id_of_start in *.
  destruct (resolveId_cases w asyncId) as [(i & -> & Hi & Hid) | [_ Hid]];
    rewrite Hid in Hst, Hc; simpl in Hst, Hc;
    erewrite startAsync_missing by done; rewrite Hid; simpl.
  all: repeat split.
  by destruct w.
Qed.

(** C2 (where the code departs from it).  The check
    [existingPromise === undefined] does not see that nothing is cached when
    the id is a name every object inherits from [Object.prototype]
    ("constructor", "toString", "__proto__", ...): with status PENDING and
    no property of that name in [asyncCallCache], [startAsync] does not
    throw; it returns what the cache inherits under that name, which, for
    every such name but "__proto__", is not a handle.  No transition is
    emitted. *)
Theorem startAsync_pending_inherited_name_returns w thunk i :
  i ∈ Object_prototype →
  selectAsyncStatus (store w) i = PENDING →
  asyncCallCache w !! i = None →
  ∃ v, (startAsync thunk (Some i) w).1 = Return v ∧
       (i ≠ "__proto__" → v = Inherited i) ∧
       (startAsync thunk (Some i) w).1 ≠ Throw (missing_from_cache i) ∧
       transitions (startAsync thunk (Some i) w).2 = transitions w.
Proof.
  intros Hin Hst Hc.
  assert (i ≠ "") as Hi.
  { intros ->. unfold Object_prototype in Hin.
    repeat (apply elem_of_cons in Hin as [Hin | Hin]; [discriminate |]).
    by apply elem_of_nil in Hin. }
  destruct (asyncCallCache_get_inherited w i Hin Hc) as (v & Hv & Hinh).
  exists v. rewrite (startAsync_join w thunk (Some i) i w v);
    auto using resolveId_explicit.
  simpl. split_and!; [done | done | done |]. by destruct thunk.
Qed.

(** C9. A call that [startAsync] treats as new returns a handle whose
    [id] property is the id used for the call: the explicit id when a
    non-empty one was supplied, the generated one otherwise.  The handle is
    the one [asyncCallCache] yields under that id from then on (held by the
    cache under the id, for every id but "__proto__"). *)
Theorem startAsync_handle_carries_id w thunk asyncId :
  let i := id_of_start w asyncId in
  selectAsyncStatus (store w) i ≠ PENDING →
  ∃ a, (startAsync thunk asyncId w).1 = Return (Handle a) ∧
       id a = i ∧
       asyncCallCache_get i (startAsync thunk asyncId w).2 = Some (Handle a) ∧
       (i ≠ "__proto__" → asyncCallCache (startAsync thunk asyncId w).2 !! i = Some a) ∧
       (∀ s, asyncId = Some s → s ≠ "" → id a = s) ∧
       (asyncId = None ∨ asyncId = Some "" →
        id a = "async-" +:+ pretty (nextAsyncId w)).
Proof.
  intros i Hst. subst i. unfold id_of_start in *.
  assert (∀ j w0, resolveId asyncId w = (Return j, w0) →
            selectAsyncStatus (store w0) j ≠ PENDING →
            ∃ a, (startAsync thunk asyncId w).1 = Return (Handle a) ∧ id a = j ∧
              asyncCallCache_get j (startAsync thunk asyncId w).2 = Some (Handle a) ∧
              (j ≠ "__proto__" →
               asyncCallCache (startAsync thunk asyncId w).2 !! j = Some a)) as Hfresh.
  { intros j w0 Hid Hj. erewrite startAsync_fresh by done. cbn [fst snd].
    eexists. split; [done |]. split; [done |].
    split; [apply asyncCallCache_get_started |].
    intros Hp. cbn [started_world asyncCallCache].
    rewrite lookup_assigned_cache, decide_True; [done |].
    split; [done | by intros [? _]]. }
  destruct (resolveId_cases w asyncId) as [(i & -> & Hi & Hid) | [Hno Hid]];
    rewrite Hid in Hst |- *; simpl in Hst |- *;
    destruct (Hfresh _ _ Hid Hst) as (a & Hret & Ha & Hget & Hheld);
    exists a; (split_and!; [done | done | done | done | |]).
  - by intros; simplify_eq.
  - by intros [|]; simplify_eq.
  - intros s -> Hs. by destruct Hno; simplify_eq.
  - done.
Qed.

End CallsFacts.

Section StepsFacts.
Context {S : Type} `{!Store S} `{!PromiseObjects S}.
Implicit Types (w : World S) (i : string).

Lemma alter_phase (m : gmap nat Chain) p i ph ph' :
  m !! p = Some {| chain_id := i; chain_phase := ph |} →
  alter (λ c, {| chain_id := chain_id c; chain_phase := ph' |}) p m =
  <[p := {| chain_id := i; chain_phase := ph' |}]> m.
Proof.
  intros Hp. apply map_eq. intros q. destruct (decide (p = q)) as [<- | Hq].
  - by rewrite lookup_alter_eq, lookup_insert_eq, Hp.
  - by rewrite lookup_alter_ne, lookup_insert_ne.
Qed.

Lemma step_Settle w p i o :
  chains w !! p = Some {| chain_id := i; chain_phase := Running |} →
  step w (Settle p o) = Some (settled_world p i o w).
Proof.
  intros Hp. simpl. rewrite Hp.
  destruct o; simpl; unfold set_phase, settled_world; simpl;
    by erewrite alter_phase.
Qed.

Lemma step_Finally w p i o :
  chains w !! p = Some {| chain_id := i; chain_phase := Settled o |} →
  step w (Finally p) = Some (finished_world p i o w).
Proof.
  intros Hp. simpl. rewrite Hp.
  unfold onFinally, assign_pendingCleanCallbacks, delete_asyncCallCache. unfold_M. simpl.
  unfold set_phase, finished_world, assigned_pending; simpl.
  destruct (decide (i = "__proto__" ∧ pendingCleanCallbacks w !! i = None));
    simpl; by erewrite alter_phase.
Qed.

Lemma step_Clean w i : step w (Clean i) = Some (cleaned_world ByCaller i w).
Proof. done. Qed.

Lemma step_Fire w h t :
  timers w !! h = Some t →
  due t ≤ now w →
  step w (Fire h) = Some (cleaned_world (ByTimer h) (timer_id t) (fired h w)).
Proof. intros Ht Hdue. simpl. rewrite Ht. by rewrite decide_True. Qed.

Lemma step_Fire_early w h t :
  timers w !! h = Some t → now w < due t → step w (Fire h) = None.
Proof. intros Ht Hdue. simpl. rewrite Ht. rewrite decide_False; [done | lia]. Qed.

Lemma resolveId_returns w asyncId :
  ∃ i, resolveId asyncId w = (Return i, (resolveId asyncId w).2) ∧
       id_of_start w asyncId = i.
Proof.
  unfold id_of_start.
  destruct (resolveId_cases w asyncId) as [(i & _ & _ & ->) | [_ ->]]; eauto.
Qed.

Lemma step_inv w op w' : step w op = Some w' → step_spec w op w'.
Proof.
  destruct op as [thunk asyncId | i | i | i | i | i | i | i err | p o | p | h | dt];
    intros Hs.
  - simpl in Hs. simplify_eq.
    destruct (resolveId_returns w asyncId) as (i & Hid & _).
    destruct (decide (selectAsyncStatus (store (resolveId asyncId w).2) i = PENDING))
      as [Hp | Hp].
    + destruct (asyncCallCache_get i (resolveId asyncId w).2) as [a |] eqn:Ha.
      * erewrite startAsync_join by done. by eapply spec_join.
      * erewrite startAsync_missing by done. by eapply spec_missing.
    + erewrite startAsync_fresh by done. by eapply spec_fresh.
  - simpl in Hs. simplify_eq. by eapply (spec_dispatch w (Retain i)).
  - simpl in Hs. simplify_eq. by eapply (spec_dispatch w (Release i)).
  - simpl in Hs. simplify_eq. by eapply (spec_dispatch w (Reset i)).
  - rewrite step_Clean in Hs. simplify_eq. constructor.
  - simpl in Hs. simplify_eq. by eapply (spec_dispatch w (Finish i)).
  - simpl in Hs. simplify_eq. by eapply (spec_dispatch w (Resolve i)).
  - simpl in Hs. simplify_eq. by eapply (spec_dispatch w (Reject i err)).
  - destruct (chains w !! p) as [[i [| o' | o']] |] eqn:Hp;
      try (simpl in Hs; rewrite Hp in Hs; destruct o; done).
    erewrite step_Settle in Hs by done. simplify_eq. by constructor.
  - destruct (chains w !! p) as [[i [| o' | o']] |] eqn:Hp;
      try (simpl in Hs; rewrite Hp in Hs; done).
    erewrite step_Finally in Hs by done. simplify_eq. by constructor.
  - destruct (timers w !! h) as [t |] eqn:Ht;
      [| simpl in Hs; by rewrite Ht in Hs].
    destruct (decide (due t ≤ now w)) as [Hd | Hd].
    + erewrite step_Fire in Hs by done. simplify_eq. by constructor.
    + erewrite step_Fire_early in Hs by (done || lia). done.
  - simpl in Hs. simplify_eq. constructor.
Qed.

End StepsFacts.

Section InvariantsFacts.
Context {S : Type} `{!Store S} `{!PromiseObjects S}.
Implicit Types (w : World S) (i : string).

Lemma resolveId_same_tracking w asyncId i w0 :
  resolveId asyncId w = (Return i, w0) → same_tracking w w0 ∧ i ≠ "".
Proof.
  intros Hid.
  destruct (resolveId_cases w asyncId) as [(j & -> & Hj & Hid') | [_ Hid']];
    rewrite Hid' in Hid; simplify_eq; by repeat split.
Qed.

Lemma dispatch_same_tracking w o a : same_tracking w (dispatch o a w).2.
Proof. by repeat split. Qed.

Lemma warn_same_tracking w msg : same_tracking w (console_warn msg w).2.
Proof. by repeat split. Qed.

Lemma same_tracking_trans w1 w2 w3 :
  same_tracking w1 w2 → same_tracking w2 w3 → same_tracking w1 w3.
Proof. unfold same_tracking. intros (?&?&?&?&?&?&?) (?&?&?&?&?&?&?). repeat split; congruence. Qed.

Lemma fresh_handles_same w w' : same_tracking w w' → fresh_handles w → fresh_handles w'.
Proof. intros (_&_&Ht&Hnt&Hc&Hnp&_) [H1 H2]. unfold fresh_handles. rewrite Ht, Hnt, Hc, Hnp. done. Qed.

Lemma seq_inv_same w w' : same_tracking w w' → seq_inv w → seq_inv w'.
Proof.
  intros Hs [H1 H2 H3 H4 H5]. pose proof Hs as (Hp&Hca&Ht&Hnt&Hc&Hnp&Hpr).
  split; [by eapply fresh_handles_same | ..];
    unfold idle; rewrite ?Hp, ?Hca, ?Ht, ?Hc, ?Hpr; done.
Qed.

Lemma fresh_handles_initial : fresh_handles (initial : World S).
Proof. split; intros ? ?; simpl; by rewrite lookup_empty. Qed.

Lemma fresh_handles_step w op w' :
  fresh_handles w → step w op = Some w' → fresh_handles w'.
Proof.
  intros Hf Hs. apply step_inv in Hs.
  destruct Hs as [thunk asyncId i w0 a Hid _ _ | thunk asyncId i w0 Hid _ _
                 | thunk asyncId i w0 Hid _ | op a _ | i | p i o Hp | p i o Hp
                 | h t Ht _ | dt].
  - apply resolveId_same_tracking in Hid as [Hid _].
    eapply fresh_handles_same; [| done].
    destruct thunk; [| done]. eapply same_tracking_trans; [done |]. apply warn_same_tracking.
  - apply resolveId_same_tracking in Hid as [Hid _]. by eapply fresh_handles_same.
  - apply resolveId_same_tracking in Hid as [Hid _].
    apply (fresh_handles_same _ _ Hid) in Hf as [Hc Ht].
    split; simpl.
    + intros p c. rewrite lookup_insert. case_decide; [intros; simplify_eq; lia |].
      intros Hp%Hc. lia.
    + intros h t Hh. apply (Ht h t).
      destruct (pendingCleanCallbacks w0 !! i); [| done].
      by apply lookup_delete_Some in Hh as [_ ?].
  - eapply fresh_handles_same; [| done]. apply dispatch_same_tracking.
  - destruct Hf as [Hc Ht]. split; simpl; [done |].
    intros h t Hh. apply (Ht h t).
    destruct (pendingCleanCallbacks w !! i); [| done].
    by apply lookup_delete_Some in Hh as [_ ?].
  - destruct Hf as [Hc Ht]. split; simpl; [| done].
    intros q c. rewrite lookup_insert. case_decide; [intros; simplify_eq; by eapply Hc |].
    apply Hc.
  - destruct Hf as [Hc Ht]. split; simpl.
    + intros q c. rewrite lookup_insert. case_decide; [intros; simplify_eq; by eapply Hc |].
      apply Hc.
    + intros h t. rewrite lookup_insert. case_decide; [intros; simplify_eq; lia |].
      intros Hh%Ht. lia.
  - destruct Hf as [Hc Hti]. split; simpl; [done |].
    intros h' t' Hh. apply (Hti h' t').
    destruct (pendingCleanCallbacks w !! timer_id t).
    + apply lookup_delete_Some in Hh as [_ Hh]. by apply lookup_delete_Some in Hh as [_ ?].
    + by apply lookup_delete_Some in Hh as [_ ?].
  - done.
Qed.

(** Every handle the cache holds is filed under its own [id], which is
    neither the empty string nor "__proto__". *)
Lemma cache_keys ok w i a :
  reachable_by ok w → asyncCallCache w !! i = Some a →
  id a = i ∧ i ≠ "" ∧ i ≠ "__proto__".
Proof.
  intros Hw. revert i a. induction Hw as [| w op w' Hw IH _ Hs]; intros j b.
  - simpl. by rewrite lookup_empty.
  - apply step_inv in Hs.
    destruct Hs as [thunk asyncId i w0 a Hid _ _ | thunk asyncId i w0 Hid _ _
                   | thunk asyncId i w0 Hid _ | op a _ | i | p i o Hp | p i o Hp
                   | h t Ht _ | dt]; simpl; try apply IH.
    + apply resolveId_same_tracking in Hid as [(_ & Hc & _) _].
      destruct thunk; simpl; rewrite Hc; apply IH.
    + apply resolveId_same_tracking in Hid as [(_ & Hc & _) _]. rewrite Hc. apply IH.
    + apply resolveId_same_tracking in Hid as [(_ & Hc & _) Hne].
      rewrite lookup_assigned_cache, Hc. case_decide as Hj; [| apply IH].
      destruct Hj as [-> Hn]. intros; simplify_eq. split_and!; [done | done |].
      intros ->. apply Hn. split; [done |].
      destruct (asyncCallCache w !! "__proto__") as [c |] eqn:E; [| done].
      by destruct (IH _ _ E) as (_ & _ & ?).
    + intros [_ Hb]%lookup_delete_Some. by apply IH.
Qed.

Lemma reachable_fresh_handles ok w : reachable_by ok w → fresh_handles w.
Proof.
  induction 1; [apply fresh_handles_initial | by eapply fresh_handles_step].
Qed.

End InvariantsFacts.

Section Sequenced.
Context {S : Type} `{!Store S} `{!PromiseObjects S}.
Implicit Types (w : World S) (i : string).

Lemma resolveId_store w asyncId i w0 :
  resolveId asyncId w = (Return i, w0) →
  store w0 = store w ∧ log w0 = log w ∧ now w0 = now w ∧
  nextAsyncId w ≤ nextAsyncId w0.
Proof.
  intros Hid.
  destruct (resolveId_cases w asyncId) as [(j & -> & Hj & Hid') | [_ Hid']];
    rewrite Hid' in Hid; simplify_eq; simpl; repeat split; try lia.
  unfold js_succ. case_decide; lia.
Qed.

Lemma idle_spec w i :
  idle w i ↔ ∀ p c, chains w !! p = Some c → ¬ unfinished_for i c.
Proof. done. Qed.

Lemma unfinished_Running i j : unfinished_for j {| chain_id := i; chain_phase := Running |} ↔ i = j.
Proof.
  unfold unfinished_for; simpl.
  split; [by intros [? _] | intros ->; split; [done | by intros o]].
Qed.

Lemma unfinished_Settled i j o :
  unfinished_for j {| chain_id := i; chain_phase := Settled o |} ↔ i = j.
Proof.
  unfold unfinished_for; simpl.
  split; [by intros [? _] | intros ->; split; [done | by intros o']].
Qed.

Lemma unfinished_Done i j o :
  ¬ unfinished_for j {| chain_id := i; chain_phase := Done o |}.
Proof. unfold unfinished_for; simpl. intros [_ Hn]. by apply (Hn o). Qed.

Lemma seq_inv_initial : seq_inv (initial : World S).
Proof.
  split; [apply fresh_handles_initial | ..]; simpl.
  - intros ????? Hp. by rewrite lookup_empty in Hp.
  - intros ?? Hp. by rewrite lookup_empty in Hp.
  - intros i a. rewrite lookup_empty. split; [done |].
    intros (_ & _ & c & Hc & _). by rewrite lookup_empty in Hc.
  - intros p c Hp. by rewrite lookup_empty in Hp.
Qed.

Lemma seq_inv_started w thunk i :
  seq_inv w → idle w i → seq_inv (started_world thunk i w).
Proof.
  intros [[Hfc Hft] Hone Htim Hcache Hproto] Hidle. rewrite idle_spec in Hidle.
  assert (chains w !! nextPromise w = None) as Hnone.
  { destruct (chains w !! nextPromise w) eqn:E; [| done]. apply Hfc in E. lia. }
  assert (asyncCallCache w !! "__proto__" = None) as Hown.
  { destruct (asyncCallCache w !! "__proto__") eqn:E; [| done].
    by apply Hcache in E as [E _]. }
  split; simpl.
  - split; simpl.
    + intros p c. rewrite lookup_insert. case_decide; [intros; simplify_eq; lia |].
      intros Hp%Hfc. lia.
    + intros h t Hh. apply (Hft h t).
      destruct (pendingCleanCallbacks w !! i); [| done].
      by apply lookup_delete_Some in Hh as [_ ?].
  - intros j p1 p2 c1 c2. rewrite !lookup_insert.
    repeat case_decide; intros; simplify_eq; try done.
    + exfalso. eapply Hidle; [done |]. by rewrite unfinished_Running in *; subst.
    + exfalso. eapply Hidle; [done |]. by rewrite unfinished_Running in *; subst.
    + by eapply Hone.
  - intros h t Hh Hpk.
    assert (timers w !! h = Some t) as Hold.
    { destruct (pendingCleanCallbacks w !! i); [| done].
      by apply lookup_delete_Some in Hh as [_ ?]. }
    destruct (Htim h t Hold Hpk) as [Hp Hi]. split; [done |].
    assert (timer_id t ≠ i) as Hne.
    { intros Heq. rewrite Heq in Hp. rewrite Hp in Hh. by rewrite lookup_delete_eq in Hh. }
    apply map_Forall_insert_2; [by rewrite unfinished_Running | done].
  - intros j a. rewrite lookup_assigned_cache. case_decide as Hj.
    + destruct Hj as [<- Hn].
      assert (i ≠ "__proto__") as Hpk by (intros ->; by apply Hn).
      split.
      * intros; simplify_eq. split_and!; [done | done |]. simpl. rewrite lookup_insert_eq.
        eexists; split; [done |]. by rewrite unfinished_Running.
      * intros (_ & Hid & c & Hc & Hu). destruct a as [p j]; simpl in *. subst j.
        rewrite lookup_insert in Hc. case_decide; [by simplify_eq |].
        exfalso. by eapply Hidle.
    + rewrite Hcache. split; intros (Hpk & Hid & c & Hc & Hu); (split_and!; [done | done |]).
      * exists c. rewrite lookup_insert_ne; [done |]. intros Heq. by rewrite <- Heq, Hnone in Hc.
      * rewrite lookup_insert in Hc. case_decide; [| by eauto].
        simplify_eq. rewrite unfinished_Running in Hu.
        exfalso. apply Hj. split; [done |]. intros [Hi _]. apply Hpk. by rewrite <- Hu.
  - intros p c. rewrite lookup_insert. unfold assigned_prototype. case_decide as Hp.
    + intros Hc Hu; simplify_eq. rewrite unfinished_Running in Hu. subst i.
      by rewrite decide_True.
    + intros Hc Hu. case_decide as Hg; [| by eapply Hproto].
      destruct Hg as [-> _]. exfalso. by eapply Hidle.
Qed.

Lemma seq_inv_settled w p i o :
  seq_inv w →
  chains w !! p = Some {| chain_id := i; chain_phase := Running |} →
  seq_inv (settled_world p i o w).
Proof.
  intros [[Hfc Hft] Hone Htim Hcache Hproto] Hp.
  assert (∀ q c, <[p := {| chain_id := i; chain_phase := Settled o |}]> (chains w) !! q = Some c →
            ∃ c', chains w !! q = Some c' ∧ ∀ j, unfinished_for j c ↔ unfinished_for j c') as Hback.
  { intros q c. rewrite lookup_insert. case_decide; [| by eauto].
    intros; simplify_eq. eexists; split; [done |].
    intros j. by rewrite unfinished_Running, unfinished_Settled. }
  assert (∀ q c', chains w !! q = Some c' →
            ∃ c, <[p := {| chain_id := i; chain_phase := Settled o |}]> (chains w) !! q = Some c ∧
                 ∀ j, unfinished_for j c ↔ unfinished_for j c') as Hforth.
  { intros q c' Hq. rewrite lookup_insert. case_decide; [| by eauto].
    simplify_eq. eexists; split; [done |].
    intros j. by rewrite unfinished_Running, unfinished_Settled. }
  split; simpl.
  - split; simpl; [| done].
    intros q c Hq. apply Hback in Hq as (c' & Hq & _). by eapply Hfc.
  - intros j p1 p2 c1 c2 H1 H2 U1 U2.
    apply Hback in H1 as (c1' & H1 & E1). apply Hback in H2 as (c2' & H2 & E2).
    eapply (Hone j); [done | done | by apply E1 | by apply E2].
  - intros h t Hh Hpk. destruct (Htim h t Hh Hpk) as [Hpc Hi]. split; [done |].
    rewrite idle_spec in Hi |- *. simpl. intros q c Hq Hu.
    apply Hback in Hq as (c' & Hq & E). eapply Hi; [done |]. by apply E.
  - intros j a. rewrite Hcache.
    split; intros (Hpk & Hid & c & Hc & Hu); (split_and!; [done | done |]).
    + apply Hforth in Hc as (c' & Hc & E). exists c'. split; [done |]. by apply E.
    + apply Hback in Hc as (c' & Hc & E). exists c'. split; [done |]. by apply E.
  - intros q c Hq Hu. apply Hback in Hq as (c' & Hq & E).
    eapply Hproto; [done |]. by apply E.
Qed.

Lemma seq_inv_finished w p i o :
  seq_inv w →
  chains w !! p = Some {| chain_id := i; chain_phase := Settled o |} →
  seq_inv (finished_world p i o w).
Proof.
  intros [[Hfc Hft] Hone Htim Hcache Hproto] Hp.
  assert (unfinished_for i {| chain_id := i; chain_phase := Settled o |}) as Hup
    by by rewrite unfinished_Settled.
  assert (timers w !! nextTimer w = None) as Hnone.
  { destruct (timers w !! nextTimer w) eqn:E; [| done]. apply Hft in E. lia. }
  assert (∀ q c j, <[p := {| chain_id := i; chain_phase := Done o |}]> (chains w) !! q = Some c →
            unfinished_for j c → q ≠ p ∧ chains w !! q = Some c) as Hback.
  { intros q c j. rewrite lookup_insert. case_decide; [| done].
    intros; simplify_eq. by destruct (unfinished_Done i j o). }
  split; simpl.
  - split; simpl.
    + intros q c. rewrite lookup_insert. case_decide; [intros; simplify_eq; by eapply Hfc |].
      apply Hfc.
    + intros h t. rewrite lookup_insert. case_decide; [intros; simplify_eq; lia |].
      intros Hh%Hft. lia.
  - intros j p1 p2 c1 c2 H1 H2 U1 U2.
    destruct (Hback _ _ _ H1 U1) as [_ H1']. destruct (Hback _ _ _ H2 U2) as [_ H2'].
    by eapply (Hone j).
  - intros h t. rewrite lookup_insert. case_decide as Hh.
    + intros ? Hpk; simplify_eq. simpl in *.
      rewrite assigned_pending_plain, lookup_insert_eq by done. split; [done |].
      rewrite idle_spec. simpl. intros q c Hq Hu.
      destruct (Hback _ _ _ Hq Hu) as [Hne Hq'].
      apply Hne. by eapply (Hone i).
    + intros Ht Hpk. destruct (Htim h t Ht Hpk) as [Hpc Hi].
      assert (timer_id t ≠ i) as Hne.
      { intros Heq. rewrite Heq, idle_spec in Hi. by eapply Hi. }
      rewrite lookup_assigned_pending, decide_False by (by intros [? _]).
      split; [done |].
      rewrite idle_spec in Hi |- *. simpl. intros q c Hq Hu.
      destruct (Hback _ _ _ Hq Hu) as [_ Hq']. by eapply Hi.
  - intros j a. rewrite lookup_delete. case_decide as Hj.
    + subst j. split; [done |]. intros (_ & Hid & c & Hc & Hu). exfalso.
      destruct (Hback _ _ _ Hc Hu) as [Hne Hc']. apply Hne. by eapply (Hone i).
    + rewrite Hcache.
      split; intros (Hpk & Hid & c & Hc & Hu); (split_and!; [done | done |]).
      * exists c. split; [| done]. rewrite lookup_insert_ne; [done |].
        intros Heq. rewrite <- Heq, Hp in Hc. simplify_eq.
        by rewrite unfinished_Settled in Hu.
      * destruct (Hback _ _ _ Hc Hu) as [_ Hc']. by eauto.
  - intros q c Hq Hu. destruct (Hback _ _ _ Hq Hu) as [_ Hq']. by eapply Hproto.
Qed.

Lemma seq_inv_cleaned w o i :
  seq_inv w → seq_inv (cleaned_world o i w).
Proof.
  intros [[Hfc Hft] Hone Htim Hcache Hproto].
  assert (∀ h t, match pendingCleanCallbacks w !! i with
                 | Some h' => delete h' (timers w)
                 | None => timers w
                 end !! h = Some t → timer_id t ≠ "__proto__" →
                 timers w !! h = Some t ∧ timer_id t ≠ i) as Hback.
  { intros h t Hh Hpk.
    assert (timers w !! h = Some t) as Hold.
    { destruct (pendingCleanCallbacks w !! i); [| done].
      by apply lookup_delete_Some in Hh as [_ ?]. }
    split; [done |]. intros Heq. destruct (Htim h t Hold Hpk) as [Hpc _].
    rewrite Heq in Hpc. rewrite Hpc in Hh. by rewrite lookup_delete_eq in Hh. }
  split; simpl; [| done | | done | done].
  - split; simpl; [done |]. intros h t Hh. eapply Hft.
    destruct (pendingCleanCallbacks w !! i); [| done].
    by apply lookup_delete_Some in Hh as [_ ?].
  - intros h t Hh Hpk. destruct (Hback _ _ Hh Hpk) as [Hh' Hne].
    destruct (Htim h t Hh' Hpk) as [Hpc Hi]. by rewrite lookup_delete_ne.
Qed.

Lemma seq_inv_fired w h t :
  seq_inv w → timers w !! h = Some t → seq_inv (fired h w).
Proof.
  intros [[Hfc Hft] Hone Htim Hcache Hproto] Ht.
  split; simpl; [| done | | done | done].
  - split; simpl; [done |]. intros h' t' Hh.
    apply lookup_delete_Some in Hh as [_ Hh]. by eapply Hft.
  - intros h' t' Hh. apply lookup_delete_Some in Hh as [_ Hh]. by apply Htim.
Qed.

Lemma seq_inv_step w op w' :
  seq_inv w → no_overlap w op → step w op = Some w' → seq_inv w'.
Proof.
  intros Hinv Hok Hs. apply step_inv in Hs.
  destruct Hs as [thunk asyncId i w0 a Hid _ _ | thunk asyncId i w0 Hid _ _
                 | thunk asyncId i w0 Hid Hst | op a _ | i | p i o Hp | p i o Hp
                 | h t Ht _ | dt].
  - apply resolveId_same_tracking in Hid as [Hid _].
    eapply seq_inv_same; [| done].
    destruct thunk; [| done]. eapply same_tracking_trans; [done |]. apply warn_same_tracking.
  - apply resolveId_same_tracking in Hid as [Hid _]. by eapply seq_inv_same.
  - simpl in Hok. unfold id_of_start in Hok. rewrite Hid in Hok. simpl in Hok.
    pose proof (resolveId_store _ _ _ _ Hid) as (Hstore & _).
    pose proof (resolveId_same_tracking _ _ _ _ Hid) as [Hsame _].
    rewrite Hstore in Hst. destruct Hok as [? | Hidle]; [done |].
    apply seq_inv_started; [by eapply seq_inv_same |].
    unfold idle in *. destruct Hsame as (_&_&_&_&->&_). done.
  - eapply seq_inv_same; [| done]. apply dispatch_same_tracking.
  - by apply seq_inv_cleaned.
  - by apply seq_inv_settled.
  - by apply seq_inv_finished.
  - apply seq_inv_cleaned. by eapply seq_inv_fired.
  - by destruct Hinv.
Qed.

Lemma sequenced_seq_inv w : sequenced w → seq_inv w.
Proof. induction 1; [apply seq_inv_initial | by eapply seq_inv_step]. Qed.

End Sequenced.

Section Cleanup.
Context {S : Type} `{!Store S} `{!PromiseObjects S}.
Implicit Types (w : World S) (i : string).

Lemma cleanAsyncState_world w i :
  cleanAsyncState i w =
    (Return (metaAction CLEAN_ASYNC_STATE i),
     {| store := store w;
        pendingCleanCallbacks := delete i (pendingCleanCallbacks w);
        asyncCallCache := asyncCallCache w; cachePrototype := cachePrototype w;
        nextAsyncId := nextAsyncId w;
        timers := match pendingCleanCallbacks w !! i with
                  | Some h => delete h (timers w)
                  | None => timers w
                  end;
        nextTimer := nextTimer w; chains := chains w;
        nextPromise := nextPromise w; now := now w;
        log := EClearTimeout (pendingCleanCallbacks w !! i) :: log w |}).
Proof. done. Qed.

(** C10 (as the code has it).  [cleanAsyncState(id)] never looks at the
    store (so not at the retain count): it cancels the timeout whose handle
    is recorded for the id in [pendingCleanCallbacks], and no other,
    removes the id from [pendingCleanCallbacks] and returns the
    CLEAN_ASYNC_STATE action for the id.  Applied a second time it returns
    the same action and leaves the timeouts and [pendingCleanCallbacks] as
    the first application left them.  Where calls for one id do not
    overlap, and for every id but "__proto__" (under which no handle is
    ever recorded), no timeout at all is left armed for the id. *)
Theorem cleanAsyncState_cancels_and_is_idempotent w i :
  let w1 := (cleanAsyncState i w).2 in
  let w2 := (cleanAsyncState i w1).2 in
  (cleanAsyncState i w).1 = Return (metaAction CLEAN_ASYNC_STATE i) ∧
  (∀ h, pendingCleanCallbacks w !! i = Some h → timers w1 !! h = None) ∧
  (∀ h, pendingCleanCallbacks w !! i ≠ Some h → timers w1 !! h = timers w !! h) ∧
  pendingCleanCallbacks w1 = delete i (pendingCleanCallbacks w) ∧
  store w1 = store w ∧
  (∀ v, same_tracking w v →
        (cleanAsyncState i v).1 = Return (metaAction CLEAN_ASYNC_STATE i) ∧
        timers (cleanAsyncState i v).2 = timers w1 ∧
        pendingCleanCallbacks (cleanAsyncState i v).2 = pendingCleanCallbacks w1 ∧
        store (cleanAsyncState i v).2 = store v) ∧
  (cleanAsyncState i w1).1 = (cleanAsyncState i w).1 ∧
  timers w2 = timers w1 ∧
  pendingCleanCallbacks w2 = pendingCleanCallbacks w1 ∧
  (sequenced w → i ≠ "__proto__" →
   ∀ h t, timers w1 !! h = Some t → timer_id t ≠ i).
Proof.
  intros w1 w2. subst w1 w2. rewrite !cleanAsyncState_world. simpl.
  rewrite lookup_delete_eq, delete_delete_eq.
  split_and!; try done.
  - intros h ->. apply lookup_delete_eq.
  - intros h Hh. destruct (pendingCleanCallbacks w !! i) as [h' |]; [| done].
    rewrite lookup_delete_ne; [done |]. by intros ->.
  - intros v (Hp & _ & Ht & _). by rewrite Hp, Ht.
  - intros Hseq Hpk h t Hh Heq.
    apply sequenced_seq_inv in Hseq as [_ _ Htim _ _].
    assert (timers w !! h = Some t) as Hold.
    { destruct (pendingCleanCallbacks w !! i); [| done].
      by apply lookup_delete_Some in Hh as [_ ?]. }
    destruct (Htim h t Hold) as [Hp _]; [by rewrite Heq |]. rewrite Heq in Hp.
    rewrite Hp in Hh. by rewrite lookup_delete_eq in Hh.
Qed.

(** C3 (as the code has it).  The finally callback of a tracked call arms
    the cleanup timeout for the id whatever the store holds: for every
    store and every state of it, the step yields a world in which a new
    timeout for the id is armed, due [CLEAN_DELAY] = 1000 ms later, and
    recorded in [pendingCleanCallbacks]; the cache holds no entry for the id
    at that point and yields no handle for it.  The timeout cannot fire
    before it is due; when it fires it dispatches [cleanAsyncState(id)]: the
    CLEAN_ASYNC_STATE transition goes to the store and the timeout is no
    longer armed nor recorded.  Stated for every id but "__proto__", under
    which the two objects record nothing. *)
Theorem finally_always_arms_cleanup w p i o :
  chains w !! p = Some {| chain_id := i; chain_phase := Settled o |} →
  i ≠ "__proto__" →
  CLEAN_DELAY = 1000 ∧
  ∃ w', step w (Finally p) = Some w' ∧
    timers w' !! nextTimer w = Some {| timer_id := i; due := now w + CLEAN_DELAY |} ∧
    pendingCleanCallbacks w' !! i = Some (nextTimer w) ∧
    asyncCallCache w' !! i = None ∧
    (∀ a, asyncCallCache_get i w' ≠ Some (Handle a)) ∧
    transitions w' = finishAsync i :: transitions w ∧
    ∀ v, timers v !! nextTimer w = Some {| timer_id := i; due := now w + CLEAN_DELAY |} →
      (now v < now w + CLEAN_DELAY → step v (Fire (nextTimer w)) = None) ∧
      (now w + CLEAN_DELAY ≤ now v →
       ∃ v', step v (Fire (nextTimer w)) = Some v' ∧
         transitions v' = metaAction CLEAN_ASYNC_STATE i :: transitions v ∧
         store v' = reducer (store v) (metaAction CLEAN_ASYNC_STATE i) ∧
         timers v' !! nextTimer w = None ∧
         pendingCleanCallbacks v' !! i = None).
Proof.
  intros Hp Hpk. split; [done |]. eexists. split; [by apply step_Finally |].
  split_and!.
  - simpl. by rewrite lookup_insert_eq.
  - simpl. by rewrite assigned_pending_plain, lookup_insert_eq.
  - simpl. by rewrite lookup_delete_eq.
  - intros a Ha. apply asyncCallCache_get_plain in Ha; [| done].
    simpl in Ha. by rewrite lookup_delete_eq in Ha.
  - done.
  - intros v Hv. split.
    + intros Hearly. by erewrite step_Fire_early.
    + intros Hdue. eexists. split; [by erewrite step_Fire |]. simpl.
      rewrite lookup_delete_eq. split_and!; try done.
      destruct (pendingCleanCallbacks v !! i) as [n |]; [| apply lookup_delete_eq].
      destruct (decide (n = nextTimer w)) as [-> | Hn].
      * apply lookup_delete_eq.
      * rewrite lookup_delete_ne by done. apply lookup_delete_eq.
Qed.

End Cleanup.

Section Outcome.
Context {S : Type} `{!Store S} `{!PromiseObjects S}.
Implicit Types (w : World S) (i : string).

Lemma reachable_run w ops w' : reachable w → run w ops = Some w' → reachable w'.
Proof. intros Hw. by apply reachable_by_run. Qed.

(** The chain of a handle changes only by its own reactions. *)
Lemma chain_stable w op w' p c :
  fresh_handles w → step w op = Some w' → chains w !! p = Some c →
  (∀ o, op ≠ Settle p o) → op ≠ Finally p →
  chains w' !! p = Some c.
Proof.
  intros [Hfc _] Hs Hp Hns Hnf. apply step_inv in Hs.
  destruct Hs as [thunk asyncId i w0 a Hid _ _ | thunk asyncId i w0 Hid _ _
                 | thunk asyncId i w0 Hid _ | op a _ | i | q i o Hq | q i o Hq
                 | h t Ht _ | dt]; simpl; try done.
  - apply resolveId_same_tracking in Hid as [(_&_&_&_&Hc&_) _].
    destruct thunk; simpl; by rewrite Hc.
  - apply resolveId_same_tracking in Hid as [(_&_&_&_&Hc&_) _]. by rewrite Hc.
  - apply resolveId_same_tracking in Hid as [(_&_&_&_&Hc&Hn&_) _]. rewrite Hc, Hn.
    rewrite lookup_insert_ne; [done |]. apply Hfc in Hp. lia.
  - rewrite lookup_insert_ne; [done |]. intros ->. by eapply Hns.
  - rewrite lookup_insert_ne; [done |]. by intros ->.
Qed.

Lemma done_stable w ops w' p i o :
  fresh_handles w → run w ops = Some w' →
  chains w !! p = Some {| chain_id := i; chain_phase := Done o |} →
  chains w' !! p = Some {| chain_id := i; chain_phase := Done o |}.
Proof.
  intros Hf Hr Hp. revert w Hf Hr Hp.
  induction ops as [| op ops IH]; simpl; intros w Hf Hr Hp; [by simplify_eq |].
  destruct (step w op) as [w1 |] eqn:Hs; simpl in Hr; [| done].
  eapply IH; [by eapply fresh_handles_step | done |].
  eapply chain_stable; [done | done | done | |].
  - intros o' ->. apply step_inv in Hs. inversion Hs; simplify_eq; done.
  - intros ->. apply step_inv in Hs. inversion Hs; simplify_eq; done.
Qed.

Lemma settled_stable w ops w' p i o :
  fresh_handles w → run w ops = Some w' → Finally p ∉ ops →
  chains w !! p = Some {| chain_id := i; chain_phase := Settled o |} →
  chains w' !! p = Some {| chain_id := i; chain_phase := Settled o |}.
Proof.
  intros Hf Hr Hn Hp. revert w Hf Hr Hp.
  induction ops as [| op ops IH]; simpl; intros w Hf Hr Hp; [by simplify_eq |].
  destruct (step w op) as [w1 |] eqn:Hs; simpl in Hr; [| done].
  apply not_elem_of_cons in Hn as [Hop Hn].
  eapply IH; [done | by eapply fresh_handles_step | done |].
  eapply chain_stable; [done | done | done | | done].
  intros o' ->. apply step_inv in Hs. inversion Hs; simplify_eq; done.
Qed.

(** C7. When the operation behind a tracked call is rejected with an
    error, the catch callback emits the rejected transition for the id of
    the call, carrying that error, and throws the error again: whatever
    runs before the finally callback, the finally callback then runs and
    leaves the handle returned by [startAsync] rejected with the very same
    error, for good. *)
Theorem rejection_is_reported_and_rethrown w p i err :
  reachable w →
  chains w !! p = Some {| chain_id := i; chain_phase := Running |} →
  ∃ w1, step w (Settle p (Rejected err)) = Some w1 ∧
    log w1 = EDispatch (ByCall p) (rejectAsync i err) :: log w ∧
    store w1 = reducer (store w) (rejectAsync i err) ∧
    type (rejectAsync i err) = ASYNC_REJECTED ∧
    asyncId (meta (rejectAsync i err)) = i ∧
    payload (rejectAsync i err) = Some err ∧
    (onRejected p i err w).1 = Throw err ∧
    ∀ ops w2, run w1 ops = Some w2 → Finally p ∉ ops →
      ∃ w3, step w2 (Finally p) = Some w3 ∧
        ∀ ops' w4, run w3 ops' = Some w4 →
          chains w4 !! p = Some {| chain_id := i; chain_phase := Done (Rejected err) |}.
Proof.
  intros Hw Hp. eexists. split; [by apply step_Settle |].
  split_and!; try done.
  intros ops w2 Hr Hn.
  assert (fresh_handles (settled_world p i (Rejected err) w)) as Hf1.
  { eapply fresh_handles_step; [by eapply reachable_fresh_handles |].
    by apply step_Settle. }
  assert (chains w2 !! p = Some {| chain_id := i; chain_phase := Settled (Rejected err) |})
    as Hp2.
  { eapply settled_stable; [done | done | done |]. simpl. apply lookup_insert_eq. }
  eexists. split; [by apply step_Finally |].
  intros ops' w4 Hr'. eapply done_stable; [| done |].
  - eapply fresh_handles_step; [| by apply step_Finally].
    clear Hp2 Hn. revert Hf1 Hr. generalize (settled_world p i (Rejected err) w).
    induction ops as [| op ops IH]; simpl; intros v Hv Hr; [by simplify_eq |].
    destruct (step v op) as [v1 |] eqn:Hs; simpl in Hr; [| done].
    eapply IH; [| done]. by eapply fresh_handles_step.
  - simpl. apply lookup_insert_eq.
Qed.

Lemma step_nextAsyncId w op w' :
  step w op = Some w' → nextAsyncId w ≤ nextAsyncId w'.
Proof.
  intros Hs. apply step_inv in Hs.
  destruct Hs as [thunk asyncId i w0 a Hid _ _ | thunk asyncId i w0 Hid _ _
                 | thunk asyncId i w0 Hid _ | op a _ | i | q i o Hq | q i o Hq
                 | h t Ht _ | dt]; simpl; try done;
    apply resolveId_store in Hid as (_&_&_&Hn); [by destruct thunk | done..].
Qed.

Lemma run_nextAsyncId w ops w' :
  run w ops = Some w' → nextAsyncId w ≤ nextAsyncId w'.
Proof.
  revert w. induction ops as [| op ops IH]; simpl; intros w Hr; [by simplify_eq |].
  destruct (step w op) as [w1 |] eqn:Hs; simpl in Hr; [| done].
  apply step_nextAsyncId in Hs. apply IH in Hr. lia.
Qed.

Lemma start_generated_counter w thunk asyncId w1 :
  asyncId = None ∨ asyncId = Some "" →
  step w (Start thunk asyncId) = Some w1 →
  (genAsyncId w).1 = Return (id_of_start w asyncId) ∧
  nextAsyncId w1 = js_succ (nextAsyncId w).
Proof.
  intros Hno Hs. unfold id_of_start.
  destruct (resolveId_cases w asyncId) as [(j & -> & Hj & _) | [_ Hid]];
    [by destruct Hno; simplify_eq |].
  rewrite Hid. split; [done |].
  apply step_inv in Hs. inversion Hs as [? ? i w0 a Hid' | ? ? i w0 Hid' | ? ? i w0 Hid'
                                         | ? ? Hop | | | | |]; subst;
    try (rewrite Hid in Hid'; simplify_eq; simpl; by try destruct thunk).
  done.
Qed.

(** C8. [genAsyncId] returns the fixed prefix "async-" followed by the
    decimal value of the counter, and its only effect is to advance the
    counter, which never decreases.  When [startAsync] is called without an
    id (so that it calls the generator) and, whatever happens in between, the
    generator is called again later in the same run, the two identifiers
    differ; this is stated for runs in which the counter stays below 2^53,
    where [++] on a JavaScript number is exact. *)
Theorem genAsyncId_unique w :
  genAsyncId w =
    (Return ("async-" +:+ pretty (nextAsyncId w)),
     set_nextAsyncId (js_succ (nextAsyncId w)) w) ∧
  nextAsyncId w ≤ nextAsyncId (genAsyncId w).2 ∧
  ∀ thunk asyncId ops w2,
    asyncId = None ∨ asyncId = Some "" →
    run w (Start thunk asyncId :: ops) = Some w2 →
    nextAsyncId w2 < MAX_EXACT →
    (genAsyncId w).1 = Return (id_of_start w asyncId) ∧
    nextAsyncId w < nextAsyncId w2 ∧
    (genAsyncId w).1 ≠ (genAsyncId w2).1.
Proof.
  split; [done |]. split.
  { simpl. unfold js_succ. case_decide; lia. }
  intros thunk asyncId ops w2 Hno Hr Hmax.
  change (run (startAsync thunk asyncId w).2 ops = Some w2) in Hr.
  destruct (start_generated_counter w thunk asyncId _ Hno eq_refl) as [Hid Hn].
  apply run_nextAsyncId in Hr. rewrite Hn in Hr.
  assert (nextAsyncId w < nextAsyncId w2) as Hlt.
  { unfold js_succ in Hr. case_decide; lia. }
  split_and!; [done | done |]. simpl. intros Heq.
  assert (pretty (nextAsyncId w) = pretty (nextAsyncId w2)) as Hp
    by (apply (inj (String.app "async-")); congruence).
  apply (inj pretty) in Hp. lia.
Qed.

End Outcome.

Section HistoryFacts.
Context {S : Type} `{!Store S} `{!PromiseObjects S}.
Implicit Types (w : World S) (i : string).

Lemma hist_inv_same w w' :
  same_tracking w w' → log w' = log w → hist_inv w → hist_inv w'.
Proof.
  intros (_&_&Ht&_&Hc&Hn&_) Hl [H1 H2 H3 H4].
  split; unfold history; rewrite ?Hl, ?Hn, ?Hc, ?Ht; done.
Qed.

(** An event that belongs to no chain and is not the clean of a timeout
    does not disturb the invariant. *)
Lemma hist_inv_other w w' e :
  same_tracking w w' → log w' = e :: log w →
  (∀ p, own p e = false) → (∀ h a, ¬ fired_with h a e) →
  hist_inv w → hist_inv w'.
Proof.
  intros (_&_&Ht&_&Hc&Hn&_) Hl Hown Hnf [H1 H2 H3 H4].
  split; unfold history; rewrite ?Hl, ?Hn, ?Hc, ?Ht; simpl.
  - intros p Hp. rewrite Hown. by apply H1.
  - intros p c Hp. rewrite Hown. by apply H2.
  - intros h t Hh. destruct (H3 h t Hh) as [q Hq]. exists q. by apply list_elem_of_further.
  - intros h a. split; [| done]. intros Hf. by destruct (Hnf h a).
Qed.

Lemma hist_inv_initial : hist_inv (initial : World S).
Proof.
  split; simpl; done.
Qed.

Lemma cleared_sub (m : gmap nat Timer) (oh : option nat) h t :
  match oh with Some h' => delete h' m | None => m end !! h = Some t → m !! h = Some t.
Proof. destruct oh; [| done]. by intros [_ ?]%lookup_delete_Some. Qed.

Lemma hist_inv_step w op w' :
  fresh_handles w → hist_inv w → step w op = Some w' → hist_inv w'.
Proof.
  intros Hf Hinv Hs. apply step_inv in Hs.
  destruct Hs as [thunk asyncId i w0 a Hid _ _ | thunk asyncId i w0 Hid _ _
                 | thunk asyncId i w0 Hid _ | op a _ | i | p i o Hp | p i o Hp
                 | h t Ht Hdue | dt].
  - pose proof (resolveId_store _ _ _ _ Hid) as (_ & Hl & _).
    apply resolveId_same_tracking in Hid as [Hid _].
    apply (hist_inv_same _ _ Hid Hl) in Hinv.
    destruct thunk; [| done].
    eapply hist_inv_other; [apply warn_same_tracking | done | done | done | done].
  - pose proof (resolveId_store _ _ _ _ Hid) as (_ & Hl & _).
    apply resolveId_same_tracking in Hid as [Hid _]. by eapply hist_inv_same.
  - pose proof (resolveId_store _ _ _ _ Hid) as (_ & Hl & _).
    apply resolveId_same_tracking in Hid as [Hid _].
    apply (hist_inv_same _ _ Hid Hl) in Hinv as [H1 H2 H3 H4].
    split; simpl.
    + intros p Hp. rewrite !bool_decide_eq_false_2 by lia. apply H1. lia.
    + intros p c. rewrite lookup_insert. case_decide as Hq.
      * intros; simplify_eq. exists thunk, 0%nat. unfold history. simpl.
        rewrite !bool_decide_eq_true_2 by done. by rewrite H1.
      * intros Hc. unfold history. simpl.
        rewrite !bool_decide_eq_false_2 by done. by apply H2.
    + intros h t Hh%cleared_sub. destruct (H3 h t Hh) as [q Hq].
      exists q. by do 3 apply list_elem_of_further.
    + intros h a. split_and!; try done.
  - eapply hist_inv_other; [apply dispatch_same_tracking | done | done | | done].
    intros h a'. unfold fired_with. by intros ?.
  - destruct Hinv as [H1 H2 H3 H4]. split; simpl; try done.
    intros h t Hh%cleared_sub. destruct (H3 h t Hh) as [q Hq].
    exists q. by do 2 apply list_elem_of_further.
  - destruct Hinv as [H1 H2 H3 H4]. split; simpl.
    + intros q Hq. destruct Hf as [Hfc _]. apply Hfc in Hp.
      rewrite bool_decide_eq_false_2 by lia. by apply H1.
    + intros q c. rewrite lookup_insert. case_decide as Hq.
      * intros; simplify_eq. destruct (H2 _ _ Hp) as (thunk & h & Hh).
        exists thunk, h. unfold history in *. simpl.
        rewrite bool_decide_eq_true_2 by done. rewrite reverse_cons, Hh.
        simpl. by destruct o.
      * intros Hc. unfold history. simpl.
        rewrite bool_decide_eq_false_2 by done. by apply H2.
    + intros h t Hh. destruct (H3 h t Hh) as [q Hq].
      exists q. by apply list_elem_of_further.
    + intros h a. split; [| done]. by destruct o.
  - destruct Hinv as [H1 H2 H3 H4]. split; simpl.
    + intros q Hq. destruct Hf as [Hfc _]. apply Hfc in Hp.
      rewrite !bool_decide_eq_false_2 by lia. by apply H1.
    + intros q c. rewrite lookup_insert. case_decide as Hq.
      * intros; simplify_eq. destruct (H2 _ _ Hp) as (thunk & h & Hh).
        exists thunk, (nextTimer w). unfold history in *. simpl.
        rewrite !bool_decide_eq_true_2 by done. rewrite !reverse_cons, Hh.
        simpl. done.
      * intros Hc. unfold history. simpl.
        rewrite !bool_decide_eq_false_2 by done. by apply H2.
    + intros h t. rewrite lookup_insert. case_decide as Hh.
      * intros; simplify_eq. exists p. simpl. apply list_elem_of_here.
      * intros Ht. destruct (H3 h t Ht) as [q Hq].
        exists q. by do 2 apply list_elem_of_further.
    + intros h a. split_and!; try done.
  - destruct Hinv as [H1 H2 H3 H4]. split; simpl; try done.
    + intros h' t' Hh%cleared_sub. apply lookup_delete_Some in Hh as [_ Hh].
      destruct (H3 h' t' Hh) as [q Hq].
      exists q. by do 2 apply list_elem_of_further.
    + intros h' a. split_and!; try done.
      intros Hfw. unfold fired_with in Hfw. simplify_eq.
      destruct (H3 h' t Ht) as [q Hq].
      apply Exists_exists. exists (ESetTimeout q h' (timer_id t) CLEAN_DELAY). split.
      * by apply list_elem_of_further.
      * split; [done |]. by exists q.
  - by destruct Hinv.
Qed.

Lemma reachable_hist_inv ok w : reachable_by ok w → hist_inv w.
Proof.
  induction 1 as [| w op w' Hw IH _ Hs]; [apply hist_inv_initial |].
  eapply hist_inv_step; [by eapply reachable_fresh_handles | done | done].
Qed.

(** C6 (as the code has it).  In every run, the events of one tracked call
    come in one fixed order: the started transition, then the operation is
    taken or started, then the resolved or the rejected transition, then
    the finished transition, then the cleanup timeout is armed; all carry
    the id of the call.  A timeout emits its CLEAN_ASYNC_STATE transition
    only after it was armed, for the id it was armed for.  Nothing is said
    here of the cleanup the store performs on a release. *)
Theorem call_events_in_order w p c :
  reachable w →
  chains w !! p = Some c →
  (∃ thunk h, history p w = expected p (chain_id c) thunk h (chain_phase c)) ∧
  (∀ h a, preceded (armed_for h a) (fired_with h a) (log w)).
Proof.
  intros Hw Hp. apply reachable_hist_inv in Hw as [_ H2 _ H4]. split; [by apply H2 | done].
Qed.

End HistoryFacts.

Section CacheAndTimersFacts.
Context {S : Type} `{!Store S} `{!PromiseObjects S}.
Implicit Types (w : World S) (i : string).

(** C4 (as the code has it).  As long as calls for one id do not overlap,
    at most one timeout is armed per id.  A call that [startAsync] treats
    as new cancels the timeout recorded for its id after the started
    transition and before the operation is taken or started, and no
    timeout for the id is left armed.  Arming the timeout in the finally
    callback cancels nothing: the new timeout is added to those armed and
    its handle takes the place of the one recorded for the id.  Stated for
    every id but "__proto__", under which [pendingCleanCallbacks] records
    nothing. *)
Theorem timers_of_sequenced_calls w :
  sequenced w →
  (∀ i, i ≠ "__proto__" → one_timer_for w i) ∧
  (∀ thunk asyncId,
      let i := id_of_start w asyncId in
      let w' := (startAsync thunk asyncId w).2 in
      selectAsyncStatus (store w) i ≠ PENDING →
      i ≠ "__proto__" →
      (∀ h t, timers w' !! h = Some t → timer_id t ≠ i) ∧
      ∃ p, log w' = EInvoke p thunk
                    :: EClearTimeout (pendingCleanCallbacks w !! i)
                    :: EDispatch (ByCall p) (metaAction ASYNC_STARTED i)
                    :: log w) ∧
  (∀ p i o,
      chains w !! p = Some {| chain_id := i; chain_phase := Settled o |} →
      i ≠ "__proto__" →
      ∃ w', step w (Finally p) = Some w' ∧
        timers w' = <[nextTimer w := {| timer_id := i; due := now w + CLEAN_DELAY |}]> (timers w) ∧
        pendingCleanCallbacks w' = <[i := nextTimer w]> (pendingCleanCallbacks w)).
Proof.
  intros Hseq. apply sequenced_seq_inv in Hseq as [Hf Hone Htim Hcache Hproto].
  split_and!.
  - intros i Hi h1 h2 t1 t2 H1 H2 E1 E2.
    destruct (Htim _ _ H1) as [P1 _]; [by rewrite E1 |].
    destruct (Htim _ _ H2) as [P2 _]; [by rewrite E2 |].
    rewrite E1 in P1. rewrite E2 in P2. congruence.
  - intros thunk asyncId i w' Hst Hpk. subst i w'. unfold id_of_start in *.
    destruct (resolveId asyncId w) as [[i |] w0] eqn:Hid;
      [| destruct (resolveId_cases w asyncId) as [(? & _ & _ & ?) | [_ ?]]; congruence].
    simpl in *.
    pose proof (resolveId_store _ _ _ _ Hid) as (Hstore & Hl & _).
    pose proof (resolveId_same_tracking _ _ _ _ Hid) as [(Hp & _ & Ht & _ & _ & _) _].
    erewrite startAsync_fresh; [| done | by rewrite Hstore]. simpl.
    rewrite Hp, Ht, Hl. split; [| by eexists].
    intros h t Hh Heq.
    assert (timers w !! h = Some t) as Hold.
    { destruct (pendingCleanCallbacks w !! i); [| done].
      by apply lookup_delete_Some in Hh as [_ ?]. }
    destruct (Htim h t Hold) as [Hpc _]; [by rewrite Heq |]. rewrite Heq in Hpc.
    rewrite Hpc in Hh. by rewrite lookup_delete_eq in Hh.
  - intros p i o Hp Hpk. eexists. split; [by apply step_Finally |]. simpl.
    by rewrite assigned_pending_plain.
Qed.

Lemma pend_inv_dispatch `{!StoreLaws S} w o a :
  type a ≠ ASYNC_STARTED → pend_inv w → pend_inv (dispatch o a w).2.
Proof.
  intros Ht Hinv i Hi. simpl in *.
  apply pending_by_started in Hi as [Hi | [? _]]; [by apply Hinv | done].
Qed.

Lemma pend_inv_step `{!StoreLaws S} w op w' :
  fresh_handles w → pend_inv w → step w op = Some w' → pend_inv w'.
Proof.
  intros [Hfc _] Hinv Hs. apply step_inv in Hs.
  destruct Hs as [thunk asyncId i w0 a Hid _ _ | thunk asyncId i w0 Hid _ _
                 | thunk asyncId i w0 Hid _ | op a Ha | i | p i o Hp | p i o Hp
                 | h t Ht Hdue | dt].
  - pose proof (resolveId_store _ _ _ _ Hid) as (Hstore & _).
    apply resolveId_same_tracking in Hid as [(_&_&_&_&Hc&_) _].
    intros j. destruct thunk; simpl; rewrite Hstore, Hc; apply Hinv.
  - pose proof (resolveId_store _ _ _ _ Hid) as (Hstore & _).
    apply resolveId_same_tracking in Hid as [(_&_&_&_&Hc&_) _].
    intros j. rewrite Hstore, Hc. apply Hinv.
  - pose proof (resolveId_store _ _ _ _ Hid) as (Hstore & _).
    apply resolveId_same_tracking in Hid as [(_&_&_&_&Hc&Hn&_) _].
    intros j. simpl. rewrite Hstore, Hc, Hn. intros Hj.
    apply pending_by_started in Hj as [Hj | [_ Hj]].
    + destruct (Hinv j Hj) as (q & c & Hq & Hu). exists q, c. split; [| done].
      rewrite lookup_insert_ne; [done |]. apply Hfc in Hq. lia.
    + simpl in Hj. subst j. eexists _, _. rewrite lookup_insert_eq. split; [done |].
      by apply unfinished_Running.
  - apply pend_inv_dispatch; [| done]. destruct op; try done; by subst a.
  - intros j. simpl. intros Hj.
    apply pending_by_started in Hj as [Hj | [? _]]; [by apply Hinv | done].
  - intros j. simpl. intros Hj.
    apply pending_by_started in Hj as [Hj | [Hty _]]; [| by destruct o].
    destruct (Hinv j Hj) as (q & c & Hq & Hu).
    destruct (decide (q = p)) as [-> | Hne].
    + simplify_eq. eexists _, _. rewrite lookup_insert_eq. split; [done |].
      apply unfinished_Running in Hu. by apply unfinished_Settled.
    + exists q, c. by rewrite lookup_insert_ne.
  - intros j. simpl. intros Hj.
    destruct (decide (j = i)) as [-> | Hne]; [by apply finished_not_pending in Hj |].
    apply pending_by_started in Hj as [Hj | [? _]]; [| done].
    destruct (Hinv j Hj) as (q & c & Hq & Hu).
    exists q, c. split; [| done]. rewrite lookup_insert_ne; [done |].
    intros ->. simplify_eq. by apply unfinished_Settled in Hu.
  - intros j. simpl. intros Hj.
    apply pending_by_started in Hj as [Hj | [? _]]; [by apply Hinv | done].
  - done.
Qed.

Lemma reachable_pend_inv `{!StoreLaws S} ok w : reachable_by ok w → pend_inv w.
Proof.
  induction 1 as [| w op w' Hw IH _ Hs].
  - intros i Hi. by apply initial_not_pending in Hi.
  - eapply pend_inv_step; [by eapply reachable_fresh_handles | done | done].
Qed.

(** With a store in which only the started transition makes a status
    PENDING and the finished transition leaves none PENDING, a status that
    reads PENDING belongs to a call between its start and its finally
    callback. *)
Lemma pending_has_unfinished_call `{!StoreLaws S} ok w i :
  reachable_by ok w →
  selectAsyncStatus (store w) i = PENDING →
  ∃ p c, chains w !! p = Some c ∧ unfinished_for i c.
Proof. intros Hw Hi. apply reachable_pend_inv in Hw. by apply Hw. Qed.


End CacheAndTimersFacts.

(** ** The store of the specification satisfies the laws *)

Module SpecStoreFacts.
Import SpecStore.

Lemma select_insert (st : AsyncState) i j r :
  selectAsyncStatus (<[i := r]> st) j =
  if decide (i = j) then status r else selectAsyncStatus st j.
Proof.
  unfold selectAsyncStatus, record_of. rewrite lookup_insert.
  by case_decide.
Qed.

Lemma select_delete (st : AsyncState) i j :
  selectAsyncStatus (delete i st) j =
  if decide (i = j) then NOT_STARTED else selectAsyncStatus st j.
Proof.
  unfold selectAsyncStatus, record_of. rewrite lookup_delete.
  by case_decide.
Qed.

Lemma reducer_pending (st : AsyncState) a i :
  selectAsyncStatus (reducer st a) i = PENDING →
  selectAsyncStatus st i = PENDING ∨ (type a = ASYNC_STARTED ∧ asyncId (meta a) = i).
Proof.
  unfold reducer.
  destruct (decide (asyncId (meta a) = i)) as [<- | Hne].
  - fold (selectAsyncStatus st (asyncId (meta a))).
    destruct (type a); destruct (selectAsyncStatus st (asyncId (meta a))) eqn:E;
      simpl; try case_decide;
      rewrite ?select_insert, ?select_delete, ?decide_True by done; simpl;
      try done; auto; intros; congruence.
  - fold (selectAsyncStatus st (asyncId (meta a))).
    destruct (type a); destruct (selectAsyncStatus st (asyncId (meta a))) eqn:E;
      simpl; try case_decide;
      rewrite ?select_insert, ?select_delete, ?decide_False by done; auto.
Qed.

Lemma reducer_finished (st : AsyncState) i :
  selectAsyncStatus (reducer st (finishAsync i)) i ≠ PENDING.
Proof.
  unfold reducer. simpl. fold (selectAsyncStatus st i).
  destruct (selectAsyncStatus st i) eqn:E;
    rewrite ?select_insert, ?decide_True by done; simpl; congruence.
Qed.

Global Instance spec_store_laws : StoreLaws AsyncState.
Proof.
  split.
  - done.
  - apply reducer_pending.
  - apply reducer_finished.
Qed.

End SpecStoreFacts.

Section RunsFacts.
Context {S : Type} `{!Store S} `{!PromiseObjects S}.
Implicit Types (w : World S) (i : string).

Lemma run_sequenced_sound w ops w' :
  sequenced w → run_sequenced w ops = Some w' → sequenced w'.
Proof.
  intros Hw. revert w Hw. induction ops as [| op ops IH]; simpl; intros w Hw Hr.
  - by simplify_eq.
  - case_decide as Hok; [| done].
    destruct (step w op) as [w1 |] eqn:Hs; simpl in Hr; [| done].
    eapply IH; [| done]. by econstructor.
Qed.

End RunsFacts.

Module ScenariosFacts.
Import SpecStore.
Import Scenarios.

Lemma reachable_after ops : is_Some (run (initial : World AsyncState) ops) → reachable (after ops).
Proof.
  intros [w Hw]. unfold after. rewrite Hw. simpl.
  eapply reachable_run; [constructor | done].
Qed.

Lemma sequenced_after ops :
  is_Some (run_sequenced (initial : World AsyncState) ops) → sequenced (after ops).
Proof.
  intros [w Hw]. unfold after.
  assert (run initial ops = Some w) as ->.
  { revert Hw. generalize (initial : World AsyncState).
    induction ops as [| op ops IH]; simpl; intros v Hv; [done |].
    case_decide; [| done]. destruct (step v op); simpl in *; [by apply IH | done]. }
  simpl. eapply run_sequenced_sound; [constructor | done].
Qed.

End ScenariosFacts.

Module Checks.
Import SpecStore SpecStoreFacts Scenarios ScenariosFacts.

(** The first scenario of section 8 of the specification, step by step:
    PENDING after the start, RESOLVED then FINISHED after the resolution, the
    timeout not due before 1000 ms, NOT_STARTED once it has fired. *)
Example fetch_user_scenario :
  selectAsyncStatus (store (after [Start (AThunk 0) (Some "user-1")])) "user-1" = PENDING ∧
  selectAsyncStatus
    (store (after [Start (AThunk 0) (Some "user-1"); Settle 0 (Fulfilled "Ana")]))
    "user-1" = RESOLVED ∧
  selectAsyncStatus
    (store (after [Start (AThunk 0) (Some "user-1"); Settle 0 (Fulfilled "Ana"); Finally 0]))
    "user-1" = FINISHED ∧
  run (initial : World AsyncState)
    [Start (AThunk 0) (Some "user-1"); Settle 0 (Fulfilled "Ana"); Finally 0;
     Advance 999; Fire 0] = None ∧
  selectAsyncStatus
    (store (after [Start (AThunk 0) (Some "user-1"); Settle 0 (Fulfilled "Ana"); Finally 0;
                   Advance 1000; Fire 0]))
    "user-1" = NOT_STARTED ∧
  timers (after [Start (AThunk 0) (Some "user-1"); Settle 0 (Fulfilled "Ana"); Finally 0;
                 Advance 1000; Fire 0]) = ∅.
Proof. vm_compute. repeat split. Qed.

(** A failing call: REJECTED with the error, then FINISHED. *)
Example failing_job_scenario :
  store (after [Retain "job-7"; Start (AThunk 0) (Some "job-7"); Settle 0 (Rejected "boom")])
    !! "job-7" = Some {| status := REJECTED; retainCount := 1; error := Some "boom" |} ∧
  store (after [Retain "job-7"; Start (AThunk 0) (Some "job-7"); Settle 0 (Rejected "boom");
                Finally 0])
    !! "job-7" = Some {| status := FINISHED; retainCount := 1; error := None |} ∧
  store (after [Retain "job-7"; Start (AThunk 0) (Some "job-7"); Settle 0 (Rejected "boom");
                Finally 0; Release "job-7"])
    !! "job-7" = None.
Proof. vm_compute. repeat split. Qed.

(** Ids are generated in order; an empty id counts as none. *)
Example generated_ids :
  (startAsync (AThunk 0) None (initial : World AsyncState)).1
    = Return (Handle {| promise := 0; id := "async-0" |}) ∧
  (startAsync (AThunk 1) (Some "")
     (after [Start (AThunk 0) None])).1
    = Return (Handle {| promise := 1; id := "async-1" |}).
Proof. vm_compute. repeat split. Qed.

(** A call under the id "__proto__": its handle becomes the prototype of
    the cache and no entry is made; the finally callback removes nothing
    and records no timeout handle, so the cache goes on yielding the handle
    and the timeout of the first call is still armed when a second call has
    finished.  With the handle as its prototype the cache answers "then". *)
Example proto_id_scenario :
  asyncCallCache (after proto_finished) = ∅ ∧
  cachePrototype (after proto_finished) = Some {| promise := 0; id := "__proto__" |} ∧
  asyncCallCache_get "__proto__" (after proto_finished)
    = Some (Handle {| promise := 0; id := "__proto__" |}) ∧
  pendingCleanCallbacks (after proto_finished) = ∅ ∧
  timers (after proto_twice) !! 0%nat = Some {| timer_id := "__proto__"; due := 1000 |} ∧
  timers (after proto_twice) !! 1%nat = Some {| timer_id := "__proto__"; due := 1000 |} ∧
  asyncCallCache_get "then" (initial : World AsyncState) = None ∧
  asyncCallCache_get "then" (after proto_finished) = Some (Inherited "then").
Proof. vm_compute. repeat split. Qed.

(** A second call for "x" while the first is running. *)
Lemma startAsync_pending_returns_cached_witness :
  (∀ thunk existingPromise,
      asyncCallCache (after one_call) !! "x" = Some existingPromise →
      let w' := (startAsync thunk (Some "x") (after one_call)).2 in
      (startAsync thunk (Some "x") (after one_call)).1 = Return (Handle existingPromise) ∧
      transitions w' = transitions (after one_call) ∧
      store w' = store (after one_call) ∧
      w' = (if isPromise thunk
            then (console_warn (promise_passed_warning "x") (after one_call)).2
            else after one_call)) ∧
  (∀ w0 t a,
      startAsync (AThunk t) (Some "x") w0 = (Return a, after one_call) →
      startAsync (AThunk t) (Some "x") (after one_call) = (Return a, after one_call)).
Proof.
  apply (startAsync_pending_returns_cached (after one_call) "x").
  - discriminate.
  - vm_compute. reflexivity.
Defined.

(** A call for "constructor" on a store that reads PENDING for it while
    nothing is cached: the function every object inherits under that name
    is returned. *)
Lemma startAsync_pending_inherited_name_returns_witness :
  (startAsync (AThunk 0) (Some "constructor") desynchronized_constructor).1
    = Return (Inherited "constructor").
Proof.
  destruct (startAsync_pending_inherited_name_returns
              desynchronized_constructor (AThunk 0) "constructor")
    as (v & Hret & Hinh & _).
  - apply (bool_decide_unpack _). vm_compute. exact I.
  - vm_compute. reflexivity.
  - vm_compute. reflexivity.
  - rewrite Hret. rewrite Hinh; [reflexivity | discriminate].
Defined.

(** The first call without an id. *)
Lemma startAsync_handle_carries_id_witness :
  ∃ a, (startAsync (AThunk 0) None (initial : World AsyncState)).1 = Return (Handle a) ∧
       id a = "async-0".
Proof.
  destruct (startAsync_handle_carries_id (initial : World AsyncState) (AThunk 0) None)
    as (a & Ha & Hid & _).
  - vm_compute. discriminate.
  - exists a. split; [exact Ha | exact Hid].
Defined.

(** The finally callback of a rejected call. *)
Lemma finally_always_arms_cleanup_witness :
  ∃ w', step (after one_rejected) (Finally 0) = Some w' ∧
    timers w' !! nextTimer (after one_rejected) =
      Some {| timer_id := "x"; due := now (after one_rejected) + CLEAN_DELAY |}.
Proof.
  destruct (finally_always_arms_cleanup (after one_rejected) 0 "x" (Rejected "boom"))
    as (_ & w' & Hs & Ht & _).
  - vm_compute. reflexivity.
  - discriminate.
  - exists w'. split; [exact Hs | exact Ht].
Defined.

(** Cleaning "x" once its call has finished and its timeout is armed. *)
Lemma cleanAsyncState_cancels_and_is_idempotent_witness :
  timers (cleanAsyncState "x" (after one_finished)).2 !! 0%nat = None ∧
  ∀ h t, timers (cleanAsyncState "x" (after one_finished)).2 !! h = Some t →
         timer_id t ≠ "x".
Proof.
  destruct (cleanAsyncState_cancels_and_is_idempotent (after one_finished) "x")
    as (_ & Hcancel & _ & _ & _ & _ & _ & _ & _ & Hnone).
  split.
  - apply Hcancel. vm_compute. reflexivity.
  - apply Hnone.
    + apply sequenced_after. vm_compute. eexists. reflexivity.
    + discriminate.
Defined.

(** The running call for "x" is rejected with "boom". *)
Lemma rejection_is_reported_and_rethrown_witness :
  ∃ w1, step (after one_call) (Settle 0 (Rejected "boom")) = Some w1 ∧
    log w1 = EDispatch (ByCall 0) (rejectAsync "x" "boom") :: log (after one_call) ∧
    ∃ w3, step w1 (Finally 0) = Some w3 ∧
      chains w3 !! 0%nat = Some {| chain_id := "x"; chain_phase := Done (Rejected "boom") |}.
Proof.
  destruct (rejection_is_reported_and_rethrown (after one_call) 0 "x" "boom")
    as (w1 & Hs & Hl & _ & _ & _ & _ & _ & Hlater).
  - apply reachable_after. vm_compute. eexists. reflexivity.
  - vm_compute. reflexivity.
  - exists w1. split; [exact Hs |]. split; [exact Hl |].
    destruct (Hlater [] w1) as (w3 & Hf & Hdone).
    + reflexivity.
    + apply not_elem_of_nil.
    + exists w3. split; [exact Hf |]. apply (Hdone [] w3). reflexivity.
Defined.

(** Two calls without an id. *)
Lemma genAsyncId_unique_witness :
  (genAsyncId (initial : World AsyncState)).1 ≠
  (genAsyncId (after [Start (AThunk 0) None; Start (AThunk 1) None])).1.
Proof.
  destruct (genAsyncId_unique (initial : World AsyncState)) as (_ & _ & Hdiff).
  destruct (Hdiff (AThunk 0) None [Start (AThunk 1) None]
              (after [Start (AThunk 0) None; Start (AThunk 1) None]))
    as (_ & _ & Hne).
  - left. reflexivity.
  - vm_compute. reflexivity.
  - vm_compute. reflexivity.
  - exact Hne.
Defined.

(** The history of a call run to its end. *)
Lemma call_events_in_order_witness :
  ∃ thunk h,
    history 0 (after one_finished) =
    expected 0 "x" thunk h (Done (Fulfilled "Ana")).
Proof.
  destruct (call_events_in_order (after one_finished) 0
              {| chain_id := "x"; chain_phase := Done (Fulfilled "Ana") |})
    as [Hh _].
  - apply reachable_after. vm_compute. eexists. reflexivity.
  - vm_compute. reflexivity.
  - exact Hh.
Defined.

(** One call run to its end leaves one timeout. *)
Lemma timers_of_sequenced_calls_witness : one_timer_for (after one_finished) "x".
Proof.
  destruct (timers_of_sequenced_calls (after one_finished)) as [Hone _].
  - apply sequenced_after. vm_compute. eexists. reflexivity.
  - apply Hone. discriminate.
Defined.


(** C3 does not hold as stated: the retain count of "x" is one when the
    finally callback of its call runs, and the callback arms the cleanup
    timeout all the same. *)
Lemma cleanup_armed_while_retained :
  run (initial : World AsyncState) retained_resolved = Some (after retained_resolved) ∧
  retainCount (record_of (store (after retained_resolved)) "x") = 1%nat ∧
  timers (after retained_resolved) = ∅ ∧
  step (after retained_resolved) (Finally 0) = Some (after retained_finished) ∧
  retainCount (record_of (store (after retained_finished)) "x") = 1%nat ∧
  timers (after retained_finished) !! 0%nat = Some {| timer_id := "x"; due := 1000 |} ∧
  pendingCleanCallbacks (after retained_finished) !! "x" = Some 0%nat ∧
  ¬ (is_Some (timers (after retained_finished) !! 0%nat) →
     retainCount (record_of (store (after retained_resolved)) "x") = 0%nat).
Proof.
  split_and!; [by vm_compute.. |].
  intros Honly. assert (1%nat = 0%nat) as Heq; [| discriminate Heq].
  apply Honly. eexists. vm_compute. reflexivity.
Qed.

(** C4 does not hold as stated: a second call for "x" is started once the
    first is resolved and before its finally callback; when both have
    finished, two timeouts are armed for "x", the second one armed without
    the first being cancelled.  The same happens when the second call is
    started after the record of the first, still running, was cleaned by
    hand. *)
Lemma two_timers_for_one_id :
  run (initial : World AsyncState) two_overlapping = Some (after two_overlapping) ∧
  timers (after two_overlapping) !! 0%nat = Some {| timer_id := "x"; due := 1000 |} ∧
  timers (after two_overlapping) !! 1%nat = Some {| timer_id := "x"; due := 1000 |} ∧
  ¬ one_timer_per_id (after two_overlapping) ∧
  run (initial : World AsyncState) two_overlapping_after_clean
    = Some (after two_overlapping_after_clean) ∧
  ¬ one_timer_per_id (after two_overlapping_after_clean).
Proof.
  assert (timers (after two_overlapping) !! 0%nat = Some {| timer_id := "x"; due := 1000 |})
    as H0 by (vm_compute; reflexivity).
  assert (timers (after two_overlapping) !! 1%nat = Some {| timer_id := "x"; due := 1000 |})
    as H1 by (vm_compute; reflexivity).
  assert (timers (after two_overlapping_after_clean) !! 0%nat
          = Some {| timer_id := "x"; due := 1000 |})
    as H0' by (vm_compute; reflexivity).
  assert (timers (after two_overlapping_after_clean) !! 1%nat
          = Some {| timer_id := "x"; due := 1000 |})
    as H1' by (vm_compute; reflexivity).
  split_and!; [vm_compute; reflexivity | exact H0 | exact H1 | | vm_compute; reflexivity |].
  - intros Hone. specialize (Hone 0%nat 1%nat _ _ H0 H1 eq_refl). discriminate Hone.
  - intros Hone. specialize (Hone 0%nat 1%nat _ _ H0' H1' eq_refl). discriminate Hone.
Qed.


(** C6 does not hold as stated: "x" is retained, its call is resolved, and
    the release that follows makes the store drop the record of "x" (it
    reads NOT_STARTED again) although the finished transition of the call
    has not been emitted; it is emitted by the finally callback,
    afterwards.  Also, the timeout armed by an earlier call for "x" emits
    the clean transition for "x" while a later call for "x", started after a
    clean by hand, is still running. *)
Lemma cleanup_before_finished :
  run (initial : World AsyncState) retained_resolved = Some (after retained_resolved) ∧
  store (after retained_resolved) !! "x"
    = Some {| status := RESOLVED; retainCount := 1; error := None |} ∧
  step (after retained_resolved) (Release "x") = Some (after released_early) ∧
  store (after released_early) !! "x" = None ∧
  selectAsyncStatus (store (after released_early)) "x" = NOT_STARTED ∧
  (finishAsync "x" ∉ transitions (after released_early)) ∧
  (∃ w, step (after released_early) (Finally 0) = Some w ∧
        transitions w = finishAsync "x" :: transitions (after released_early)) ∧
  ¬ (store (after released_early) !! "x" = None →
     finishAsync "x" ∈ transitions (after released_early)) ∧
  run (initial : World AsyncState) stale_timer_fires = Some (after stale_timer_fires) ∧
  chains (after stale_timer_fires) !! 1%nat
    = Some {| chain_id := "x"; chain_phase := Running |} ∧
  history 1 (after stale_timer_fires)
    = [EDispatch (ByCall 1) (metaAction ASYNC_STARTED "x"); EInvoke 1 (AThunk 1)] ∧
  head (log (after stale_timer_fires))
    = Some (EDispatch (ByTimer 0) (metaAction CLEAN_ASYNC_STATE "x")).
Proof.
  assert (finishAsync "x" ∉ transitions (after released_early)) as Hnot.
  { vm_compute. intros Hin.
    repeat (apply elem_of_cons in Hin as [Hin | Hin]; [discriminate |]).
    by apply elem_of_nil in Hin. }
  split_and!; try by vm_compute.
  - eexists. split; [vm_compute; reflexivity | by vm_compute].
  - intros Himp. apply Hnot, Himp. by vm_compute.
Qed.

(** C10 does not hold as stated: when two calls for "x" overlapped, each
    armed a timeout and only the handle of the second is recorded;
    [cleanAsyncState "x"] cancels that one and leaves the timeout of the
    first call armed, which fires later and emits the clean transition for
    "x". *)
Lemma clean_leaves_earlier_timer_armed :
  run (initial : World AsyncState) two_overlapping = Some (after two_overlapping) ∧
  timers (after two_overlapping) !! 0%nat = Some {| timer_id := "x"; due := 1000 |} ∧
  pendingCleanCallbacks (after two_overlapping) !! "x" = Some 1%nat ∧
  timers (cleanAsyncState "x" (after two_overlapping)).2 !! 0%nat
    = Some {| timer_id := "x"; due := 1000 |} ∧
  ¬ (∀ h t, timers (cleanAsyncState "x" (after two_overlapping)).2 !! h = Some t →
            timer_id t ≠ "x") ∧
  run (initial : World AsyncState) cleaned_after_overlap
    = Some (after cleaned_after_overlap) ∧
  head (log (after cleaned_after_overlap))
    = Some (EDispatch (ByTimer 0) (metaAction CLEAN_ASYNC_STATE "x")).
Proof.
  assert (timers (cleanAsyncState "x" (after two_overlapping)).2 !! 0%nat
          = Some {| timer_id := "x"; due := 1000 |}) as H0 by (vm_compute; reflexivity).
  split_and!; [vm_compute; reflexivity | vm_compute; reflexivity | vm_compute; reflexivity
              | exact H0 | | vm_compute; reflexivity | vm_compute; reflexivity].
  intros Hnone. specialize (Hnone 0%nat _ H0). apply Hnone. reflexivity.
Qed.

End Checks.

(** ** Further properties of the tracker *)

Section Fulfilment.
Context {S : Type} `{!Store S} `{!PromiseObjects S}.
Implicit Types (w : World S) (i : string).

Lemma fresh_handles_run w ops w' :
  fresh_handles w → run w ops = Some w' → fresh_handles w'.
Proof.
  intros Hf. revert w Hf. induction ops as [| op ops IH]; simpl; intros w Hf Hr.
  - by simplify_eq.
  - destruct (step w op) as [w1 |] eqn:Hs; simpl in Hr; [| done].
    eapply IH; [| done]. by eapply fresh_handles_step.
Qed.

Lemma reachable_one_step w op w' : reachable w → step w op = Some w' → reachable w'.
Proof. intros Hw Hs. eapply reachable_step; [exact Hw | exact I | exact Hs]. Qed.

(** X1. When the operation behind a tracked call is fulfilled with a value,
    the then callback emits the resolved transition for the id of the call
    (no payload, no error flag) and returns the value: whatever runs before
    the finally callback, the finally callback then runs and leaves the
    handle returned by [startAsync] fulfilled with the very same value, for
    good; the call never emits a rejected transition. *)
Theorem fulfilment_is_reported_and_passed_on w p i res :
  reachable w →
  chains w !! p = Some {| chain_id := i; chain_phase := Running |} →
  ∃ w1, step w (Settle p (Fulfilled res)) = Some w1 ∧
    log w1 = EDispatch (ByCall p) (resolveAsync i) :: log w ∧
    store w1 = reducer (store w) (resolveAsync i) ∧
    resolveAsync i = {| error := false; meta := {| asyncId := i |};
                        payload := None; type := ASYNC_RESOLVED |} ∧
    (onFulfilled p i res w).1 = Return res ∧
    ∀ ops w2, run w1 ops = Some w2 → Finally p ∉ ops →
      ∃ w3, step w2 (Finally p) = Some w3 ∧
        ∀ ops' w4, run w3 ops' = Some w4 →
          chains w4 !! p = Some {| chain_id := i; chain_phase := Done (Fulfilled res) |} ∧
          ∃ thunk h,
            history p w4 =
              [EDispatch (ByCall p) (metaAction ASYNC_STARTED i); EInvoke p thunk;
               EDispatch (ByCall p) (resolveAsync i);
               EDispatch (ByCall p) (finishAsync i);
               ESetTimeout p h i CLEAN_DELAY].
Proof.
  intros Hw Hp. eexists. split; [by apply step_Settle |].
  split_and!; try done.
  intros ops w2 Hr Hn.
  assert (reachable (settled_world p i (Fulfilled res) w)) as Hw1
    by (eapply reachable_one_step; [done | by apply step_Settle]).
  assert (reachable w2) as Hw2 by by eapply reachable_run.
  assert (chains w2 !! p = Some {| chain_id := i; chain_phase := Settled (Fulfilled res) |})
    as Hp2.
  { eapply (settled_stable (settled_world p i (Fulfilled res) w));
      [apply (reachable_fresh_handles _ _ Hw1) | done | done |].
    simpl. apply lookup_insert_eq. }
  eexists. split; [by apply step_Finally |].
  intros ops' w4 Hr'.
  assert (reachable (finished_world p i (Fulfilled res) w2)) as Hw3
    by (eapply reachable_one_step; [done | by apply step_Finally]).
  assert (chains w4 !! p = Some {| chain_id := i; chain_phase := Done (Fulfilled res) |})
    as Hp4.
  { eapply (done_stable (finished_world p i (Fulfilled res) w2));
      [apply (reachable_fresh_handles _ _ Hw3) | done |].
    simpl. apply lookup_insert_eq. }
  split; [done |].
  assert (reachable w4) as Hw4 by by eapply reachable_run.
  apply reachable_hist_inv in Hw4 as [_ Hh _ _].
  destruct (Hh _ _ Hp4) as (thunk & h & Hhist). by exists thunk, h.
Qed.

End Fulfilment.

Section Identifiers.
Context {S : Type} `{!Store S} `{!PromiseObjects S}.
Implicit Types (w : World S) (i : string).

Lemma step_counter w op w' :
  step w op = Some w' →
  nextAsyncId w' = if generates op then js_succ (nextAsyncId w) else nextAsyncId w.
Proof.
  intros Hs. destruct (generates op) eqn:Hg.
  - destruct op as [thunk [j |] | | | | | | | | | | |]; try done.
    + apply bool_decide_eq_true in Hg as ->.
      by eapply start_generated_counter; [right | done].
    + by eapply start_generated_counter; [left | done].
  - apply step_inv in Hs.
    destruct Hs as [thunk asyncId i w0 a Hid _ _ | thunk asyncId i w0 Hid _ _
                   | thunk asyncId i w0 Hid _ | op a _ | i | q i o Hq | q i o Hq
                   | h t Ht _ | dt]; simpl; try done.
    all: destruct asyncId as [j |]; [| done];
      apply bool_decide_eq_false in Hg;
      rewrite resolveId_explicit in Hid by done; simplify_eq; by try destruct thunk.
Qed.

Lemma generated_cons op ops :
  generated (op :: ops) = ((if generates op then 1 else 0) + generated ops)%nat.
Proof. unfold generated. simpl. by destruct (generates op). Qed.

Lemma generated_app ops1 ops2 :
  generated (ops1 ++ ops2)%list = (generated ops1 + generated ops2)%nat.
Proof. unfold generated. by rewrite List.filter_app, length_app. Qed.

Lemma run_counter w ops w' :
  run w ops = Some w' →
  nextAsyncId w + N.of_nat (generated ops) ≤ MAX_EXACT →
  nextAsyncId w' = nextAsyncId w + N.of_nat (generated ops).
Proof.
  revert w. induction ops as [| op ops IH]; simpl; intros w Hr Hb.
  - simplify_eq. unfold generated. simpl. lia.
  - destruct (step w op) as [w1 |] eqn:Hs; simpl in Hr; [| done].
    rewrite generated_cons in Hb |- *. apply step_counter in Hs.
    destruct (generates op).
    + assert (nextAsyncId w1 = nextAsyncId w + 1) as Hn.
      { rewrite Hs. unfold js_succ. case_decide; lia. }
      rewrite (IH w1 Hr) by lia. lia.
    + rewrite (IH w1 Hr) by (rewrite Hs; lia). rewrite Hs. lia.
Qed.

(** X2. Identifiers are handed out in order.  In a run that calls
    [startAsync] without an id (or with the empty string) n times, other
    calls and events in between, the counter ends n above where it started:
    calls with an explicit id and all other operations leave it alone.  The
    call made after k such calls works on "async-" followed by the start
    value plus k; a call with an explicit id works on that id.  Stated for
    counters that stay within 2^53, where [++] is exact. *)
Theorem generated_ids_are_numbered w ops w' :
  run w ops = Some w' →
  nextAsyncId w + N.of_nat (generated ops) ≤ MAX_EXACT →
  nextAsyncId w' = nextAsyncId w + N.of_nat (generated ops) ∧
  ∀ ops1 thunk asyncId ops2 w1,
    ops = (ops1 ++ Start thunk asyncId :: ops2)%list →
    run w ops1 = Some w1 →
    id_of_start w1 asyncId =
      if generates (Start thunk asyncId)
      then "async-" +:+ pretty (nextAsyncId w + N.of_nat (generated ops1))
      else default "" asyncId.
Proof.
  intros Hr Hb. split; [by apply run_counter |].
  intros ops1 thunk asyncId ops2 w1 -> Hr1.
  rewrite generated_app in Hb.
  apply run_counter in Hr1; [| lia].
  unfold id_of_start.
  destruct (resolveId_cases w1 asyncId) as [(j & -> & Hj & ->) | [Hno ->]]; simpl.
  - by rewrite bool_decide_eq_false_2.
  - rewrite Hr1. by destruct Hno as [-> | ->].
Qed.

(** X3. A generated id is not checked against the ids callers chose.  When
    the id [genAsyncId] hands out is PENDING and cached already (a caller
    started a call under an explicit id of the form "async-N"), a call of
    [startAsync] without an id returns the handle of that other call: it
    emits no transition, builds no chain and does not take or start its own
    operation; only the counter advances. *)
Theorem generated_id_joins_a_running_call w thunk asyncId a :
  asyncId = None ∨ asyncId = Some "" →
  selectAsyncStatus (store w) ("async-" +:+ pretty (nextAsyncId w)) = PENDING →
  asyncCallCache w !! ("async-" +:+ pretty (nextAsyncId w)) = Some a →
  let w' := (startAsync thunk asyncId w).2 in
  (startAsync thunk asyncId w).1 = Return (Handle a) ∧
  transitions w' = transitions w ∧
  chains w' = chains w ∧
  asyncCallCache w' = asyncCallCache w ∧
  (∀ p, EInvoke p thunk ∈ log w' → EInvoke p thunk ∈ log w) ∧
  nextAsyncId w' = js_succ (nextAsyncId w).
Proof.
  intros Hno Hst Hc w'. subst w'.
  destruct (resolveId_cases w asyncId) as [(j & -> & Hj & _) | [_ Hid]];
    [by destruct Hno; simplify_eq |].
  erewrite startAsync_join;
    [| exact Hid | exact Hst | apply asyncCallCache_get_held; exact Hc].
  destruct thunk; simpl; split_and!; try done.
  intros p Hin. apply elem_of_cons in Hin as [Hin | Hin]; [done | done].
Qed.

End Identifiers.

Section Lifecycle.
Context {S : Type} `{!Store S} `{!PromiseObjects S}.
Implicit Types (w : World S) (i : string).

Lemma run_cons w op ops w1 :
  step w op = Some w1 → run w (op :: ops) = run w1 ops.
Proof. intros Hs. simpl. by rewrite Hs. Qed.

(** X4. Nothing is left behind by a call that is fired and forgotten.  From
    a state in which the tracker holds nothing for an explicit id (no cache
    entry, no recorded timeout) and the id is not PENDING, the life of one
    call (start, the operation settles either way, the finally callback,
    CLEAN_DELAY ms pass, the timeout fires) is always possible and leaves
    [asyncCallCache], its prototype, [pendingCleanCallbacks] and the armed
    timeouts exactly as they were; the store has received started, resolved
    or rejected, finished and clean for the id, in this order.  Stated for
    every id but "__proto__": a call under that id leaves its handle behind
    as the prototype of the cache (see [proto_id_scenario]). *)
Theorem fire_and_forget_leaves_nothing w thunk i o :
  reachable w →
  i ≠ "" →
  i ≠ "__proto__" →
  selectAsyncStatus (store w) i ≠ PENDING →
  asyncCallCache w !! i = None →
  pendingCleanCallbacks w !! i = None →
  ∃ w',
    run w [Start thunk (Some i); Settle (nextPromise w) o; Finally (nextPromise w);
           Advance CLEAN_DELAY; Fire (nextTimer w)] = Some w' ∧
    asyncCallCache w' = asyncCallCache w ∧
    cachePrototype w' = cachePrototype w ∧
    pendingCleanCallbacks w' = pendingCleanCallbacks w ∧
    timers w' = timers w ∧
    transitions w' =
      metaAction CLEAN_ASYNC_STATE i :: finishAsync i :: outcome_action i o
      :: metaAction ASYNC_STARTED i :: transitions w.
Proof.
  intros Hw Hi Hpk Hst Hc Hp.
  pose proof (reachable_fresh_handles _ _ Hw) as [_ Hft].
  assert (timers w !! nextTimer w = None) as Hnone.
  { destruct (timers w !! nextTimer w) eqn:E; [| done]. apply Hft in E. lia. }
  assert (step w (Start thunk (Some i)) = Some (started_world thunk i w)) as H1.
  { simpl. by erewrite startAsync_fresh; [| by apply resolveId_explicit |]. }
  assert (step (started_world thunk i w) (Settle (nextPromise w) o)
          = Some (settled_world (nextPromise w) i o (started_world thunk i w))) as H2.
  { apply step_Settle. simpl. apply lookup_insert_eq. }
  assert (step (settled_world (nextPromise w) i o (started_world thunk i w))
            (Finally (nextPromise w))
          = Some (finished_world (nextPromise w) i o
                    (settled_world (nextPromise w) i o (started_world thunk i w)))) as H3.
  { apply step_Finally. simpl. apply lookup_insert_eq. }
  destruct (assigned_cache_plain w i {| promise := nextPromise w; id := i |} Hpk)
    as [Hac Hap].
  eexists.
  rewrite (run_cons _ _ _ _ H1), (run_cons _ _ _ _ H2), (run_cons _ _ _ _ H3).
  rewrite (run_cons _ (Advance CLEAN_DELAY) _ _ eq_refl).
  erewrite run_cons; [| eapply step_Fire; [simpl; apply lookup_insert_eq | simpl; lia]].
  split; [done |]. simpl.
  rewrite assigned_pending_plain by done. simpl.
  rewrite Hac, Hap, Hp, !lookup_insert_eq, !delete_delete_eq, !delete_insert_id by done.
  by split_and!.
Qed.

End Lifecycle.

Section InFlight.
Context {S : Type} `{!Store S} `{!PromiseObjects S}.
Implicit Types (w : World S) (i : string).

(** X5. Callers that join, join the call that is in flight.  As long as
    calls for one id do not overlap, a call that is between its start and
    its finally callback is the only such call for its id, and the handle
    the cache yields under the id is the handle of that very call (held by
    the cache under the id, for every id but "__proto__"); so while the id
    reads PENDING every [startAsync] for it returns that handle. *)
Theorem joiners_get_the_call_in_flight w p c i :
  sequenced w →
  chains w !! p = Some c →
  unfinished_for i c →
  asyncCallCache_get i w = Some (Handle {| promise := p; id := i |}) ∧
  (i ≠ "__proto__" → asyncCallCache w !! i = Some {| promise := p; id := i |}) ∧
  (∀ q c', chains w !! q = Some c' → unfinished_for i c' → q = p) ∧
  (selectAsyncStatus (store w) i = PENDING →
   ∀ thunk, (startAsync thunk (Some i) w).1 = Return (Handle {| promise := p; id := i |})).
Proof.
  intros Hseq Hp Hu. pose proof (sequenced_seq_inv _ Hseq) as [Hf Hone _ Hcache Hproto].
  assert (i ≠ "__proto__" → asyncCallCache w !! i = Some {| promise := p; id := i |}) as Hc.
  { intros Hpk. apply Hcache. simpl. eauto. }
  assert (asyncCallCache_get i w = Some (Handle {| promise := p; id := i |})) as Hget.
  { apply asyncCallCache_get_Handle.
    destruct (decide (i = "__proto__")) as [-> | Hpk]; [right | left; by apply Hc].
    split_and!; [| done | by eapply Hproto].
    destruct (asyncCallCache w !! "__proto__") eqn:E; [| done].
    by apply Hcache in E as [E _]. }
  assert (i ≠ "") as Hne.
  { intros ->. destruct Hu as [Hid _].
    assert (reachable_by no_overlap w) as Hw by done.
    clear -Hw Hp Hid. revert p c Hp Hid.
    induction Hw as [| w op w' Hw IH _ Hs]; intros p c Hp Hid.
    - simpl in Hp. by rewrite lookup_empty in Hp.
    - apply step_inv in Hs.
      destruct Hs as [thunk asyncId i w0 a Hid' _ _ | thunk asyncId i w0 Hid' _ _
                     | thunk asyncId i w0 Hid' _ | op a _ | i | q i o Hq | q i o Hq
                     | h t Ht _ | dt]; simpl in Hp; try by eapply IH.
      + apply resolveId_same_tracking in Hid' as [(_&_&_&_&Hc&_) _].
        destruct thunk; simpl in Hp; rewrite Hc in Hp; by eapply IH.
      + apply resolveId_same_tracking in Hid' as [(_&_&_&_&Hc&_) _].
        rewrite Hc in Hp. by eapply IH.
      + apply resolveId_same_tracking in Hid' as [(_&_&_&_&Hc&_) Hi].
        rewrite lookup_insert in Hp. case_decide; [by simplify_eq |].
        rewrite Hc in Hp. by eapply IH.
      + rewrite lookup_insert in Hp. case_decide; [simplify_eq; by eapply IH |].
        by eapply IH.
      + rewrite lookup_insert in Hp. case_decide; [simplify_eq; by eapply IH |].
        by eapply IH. }
  split_and!; [done | done | |].
  - intros q c' Hq Hu'. by eapply (Hone i).
  - intros Hst thunk.
    by erewrite startAsync_join; [| by apply resolveId_explicit | done | done].
Qed.

(** X6. The state of a running call is never cleaned by a timeout.  As
    long as calls for one id do not overlap, no cleanup timeout is armed for
    an id while a call for it is between its start and its finally callback,
    and a timeout that fires meanwhile dispatches the clean transition for
    another id.  Stated for every id but "__proto__", under which the handle
    of a timeout is not recorded and so never cancelled. *)
Theorem no_cleanup_timer_while_call_runs w p c i :
  sequenced w →
  i ≠ "__proto__" →
  chains w !! p = Some c →
  unfinished_for i c →
  (∀ h t, timers w !! h = Some t → timer_id t ≠ i) ∧
  (∀ h w', step w (Fire h) = Some w' →
     ∃ j, j ≠ i ∧
       transitions w' = metaAction CLEAN_ASYNC_STATE j :: transitions w ∧
       asyncCallCache w' = asyncCallCache w).
Proof.
  intros Hseq Hpk Hp Hu. pose proof (sequenced_seq_inv _ Hseq) as [_ _ Htim _ _].
  assert (∀ h t, timers w !! h = Some t → timer_id t ≠ i) as Hno.
  { intros h t Ht Heq. destruct (Htim h t Ht) as [_ Hidle]; [by rewrite Heq |].
    rewrite Heq, idle_spec in Hidle. by eapply Hidle. }
  split; [done |].
  intros h w' Hs. apply step_inv in Hs. inversion Hs as [| | | ? ? Hop | | | | h' t Ht Hdue |];
    subst; [done |].
  exists (timer_id t). split; [by eapply Hno | done].
Qed.

Lemma stands_for_chains w w' i a :
  (∀ p c, chains w !! p = Some c →
     ∃ c', chains w' !! p = Some c' ∧ chain_id c' = chain_id c) →
  stands_for w i a → stands_for w' i a.
Proof.
  intros Hch (Hid & Hi & c & Hc & Hcid). split_and!; [done | done |].
  destruct (Hch _ _ Hc) as (c' & Hc' & Heq). exists c'. split; [done | congruence].
Qed.

Lemma cache_wf_same w w' : same_tracking w w' → cache_wf w → cache_wf w'.
Proof.
  intros (_ & Hca & _ & _ & Hc & _ & Hpr) [H1 H2].
  unfold cache_wf, stands_for. rewrite Hca, Hc, Hpr. done.
Qed.

Lemma cache_wf_step w op w' :
  fresh_handles w → cache_wf w → step w op = Some w' → cache_wf w'.
Proof.
  intros [Hfc _] Hwf Hs. apply step_inv in Hs.
  destruct Hs as [thunk asyncId i w0 a Hid _ _ | thunk asyncId i w0 Hid _ _
                 | thunk asyncId i w0 Hid _ | op a _ | i | p i o Hp | p i o Hp
                 | h t Ht _ | dt]; try done.
  - apply resolveId_same_tracking in Hid as [Hid _].
    eapply cache_wf_same; [| done].
    destruct thunk; [| done]. eapply same_tracking_trans; [done |]. apply warn_same_tracking.
  - apply resolveId_same_tracking in Hid as [Hid _]. by eapply cache_wf_same.
  - apply resolveId_same_tracking in Hid as [Hid Hne].
    apply (cache_wf_same _ _ Hid) in Hwf as [H1 H2].
    destruct Hid as (_ & _ & _ & _ & Hc & Hn & _).
    assert (∀ j b, stands_for w0 j b → stands_for (started_world thunk i w0) j b) as Hold.
    { intros j b. apply stands_for_chains. intros q c Hq. exists c. split; [| done].
      simpl. rewrite lookup_insert_ne; [done |].
      rewrite Hc in Hq. apply Hfc in Hq. rewrite Hn. lia. }
    assert (stands_for (started_world thunk i w0) i {| promise := nextPromise w0; id := i |})
      as Hnew.
    { split_and!; [done | done |]. simpl. rewrite lookup_insert_eq. eauto. }
    split; simpl.
    + intros j b. rewrite lookup_assigned_cache. case_decide as Hj.
      * destruct Hj as [<- _]. by intros; simplify_eq.
      * intros Hb. by apply Hold, H1.
    + intros b. unfold assigned_prototype. case_decide as Hg.
      * destruct Hg as [-> _]. by intros; simplify_eq.
      * intros Hb. by apply Hold, H2.
  - destruct Hwf as [H1 H2].
    assert (∀ j b, stands_for w j b → stands_for (settled_world p i o w) j b) as Hold.
    { intros j b. apply stands_for_chains. intros q c Hq. simpl.
      rewrite lookup_insert. case_decide; [| by eauto]. simplify_eq. by eexists. }
    split; simpl; [intros j b Hb; by apply Hold, H1 | intros b Hb; by apply Hold, H2].
  - destruct Hwf as [H1 H2].
    assert (∀ j b, stands_for w j b → stands_for (finished_world p i o w) j b) as Hold.
    { intros j b. apply stands_for_chains. intros q c Hq. simpl.
      rewrite lookup_insert. case_decide; [| by eauto]. simplify_eq. by eexists. }
    split; simpl; [| intros b Hb; by apply Hold, H2].
    intros j b [_ Hb]%lookup_delete_Some. by apply Hold, H1.
Qed.

Lemma reachable_cache_wf ok w : reachable_by ok w → cache_wf w.
Proof.
  induction 1 as [| w op w' Hw IH _ Hs].
  - split; simpl; [intros i a Ha; by rewrite lookup_empty in Ha | done].
  - eapply cache_wf_step; [by eapply reachable_fresh_handles | done | done].
Qed.

(** Every handle the cache yields stands for a call for the id it is
    yielded under. *)
Lemma cache_wf_get w i a :
  cache_wf w → asyncCallCache_get i w = Some (Handle a) → stands_for w i a.
Proof.
  intros [H1 H2] [Ha | (_ & -> & Ha)]%asyncCallCache_get_Handle; [by apply H1 | by apply H2].
Qed.

(** X7. Every handle [startAsync] returns carries the id the call works
    on, also when the handle comes from the cache: in every run, whichever
    branch is taken, the [id] property of a handle that is returned is the
    explicit id (when a non-empty one was given) or the generated one, it is
    never empty, and the handle stands for a call that was started for that
    id.  (What [startAsync] returns when the cache yields an inherited
    value is no handle; see [startAsync_pending_inherited_name_returns].) *)
Theorem returned_handle_carries_id_of_call w thunk asyncId a :
  reachable w →
  (startAsync thunk asyncId w).1 = Return (Handle a) →
  id a = id_of_start w asyncId ∧
  id a ≠ "" ∧
  (∀ s, asyncId = Some s → s ≠ "" → id a = s) ∧
  ∃ c, chains (startAsync thunk asyncId w).2 !! promise a = Some c ∧ chain_id c = id a.
Proof.
  intros Hw Hret.
  pose proof (reachable_cache_wf _ _ (reachable_one_step _ (Start thunk asyncId) _ Hw eq_refl))
    as Hwf'.
  change (cache_wf (startAsync thunk asyncId w).2) in Hwf'.
  assert (id_of_start w asyncId ≠ "" ∧
          (∀ s, asyncId = Some s → s ≠ "" → id_of_start w asyncId = s)) as [Hne Hexp].
  { unfold id_of_start.
    destruct (resolveId_cases w asyncId) as [(j & -> & Hj & ->) | [Hno ->]]; simpl.
    - split; [done |]. by intros; simplify_eq.
    - split; [done |]. intros s -> Hs. by destruct Hno; simplify_eq. }
  assert (asyncCallCache_get (id_of_start w asyncId) (startAsync thunk asyncId w).2
          = Some (Handle a)) as Hc.
  { destruct (resolveId_returns w asyncId) as (i & Hid & Hi). rewrite Hi.
    destruct (decide (selectAsyncStatus (store (resolveId asyncId w).2) i = PENDING))
      as [Hp | Hp].
    - destruct (asyncCallCache_get i (resolveId asyncId w).2) as [b |] eqn:Hb.
      + erewrite startAsync_join in Hret |- * by done. simpl in *. simplify_eq.
        apply asyncCallCache_get_Handle in Hb. apply asyncCallCache_get_Handle.
        by destruct thunk.
      + by erewrite startAsync_missing in Hret by done.
    - erewrite startAsync_fresh in Hret |- * by done. cbn [fst snd] in *. simplify_eq.
      apply asyncCallCache_get_started. }
  destruct (cache_wf_get _ _ _ Hwf' Hc) as (Hid & _ & c & Hpc & Hcid).
  split_and!; [done | by rewrite Hid | | ].
  - intros s Hs Hs'. rewrite Hid. by apply Hexp.
  - exists c. by rewrite Hid.
Qed.

End InFlight.

Section TimersAndIds.
Context {S : Type} `{!Store S} `{!PromiseObjects S}.
Implicit Types (w : World S) (i : string).

Lemma timers_wf_same w w' : same_tracking w w' → timers_wf w → timers_wf w'.
Proof.
  intros Hs [H1 H2 H3]. pose proof Hs as (Hp & _ & Ht & Hnt & _).
  split; [by eapply fresh_handles_same | ..]; rewrite ?Hp, ?Ht, ?Hnt; done.
Qed.

Lemma timers_wf_step w op w' : timers_wf w → step w op = Some w' → timers_wf w'.
Proof.
  intros Hwf Hs.
  assert (fresh_handles w') as Hf' by (eapply fresh_handles_step; [apply Hwf | done]).
  apply step_inv in Hs.
  destruct Hs as [thunk asyncId i w0 a Hid _ _ | thunk asyncId i w0 Hid _ _
                 | thunk asyncId i w0 Hid _ | op a _ | i | p i o Hp | p i o Hp
                 | h t Ht _ | dt].
  - apply resolveId_same_tracking in Hid as [Hid _].
    eapply timers_wf_same; [| done].
    destruct thunk; [| done]. eapply same_tracking_trans; [done |]. apply warn_same_tracking.
  - apply resolveId_same_tracking in Hid as [Hid _]. by eapply timers_wf_same.
  - apply resolveId_same_tracking in Hid as [Hid _].
    apply (timers_wf_same _ _ Hid) in Hwf as [_ H2 H3].
    split; [done | done |]. simpl. intros j h t Hj Hh%cleared_sub. by eapply H3.
  - eapply timers_wf_same; [| done]. apply dispatch_same_tracking.
  - destruct Hwf as [_ H2 H3]. split; [done | |]; simpl.
    + intros j h [_ Hj]%lookup_delete_Some. by eapply H2.
    + intros j h t [_ Hj]%lookup_delete_Some Hh%cleared_sub. by eapply H3.
  - destruct Hwf as [_ H2 H3]. by split.
  - destruct Hwf as [_ H2 H3]. split; [done | |]; simpl.
    + intros j h. rewrite lookup_assigned_pending.
      case_decide; [intros; simplify_eq; lia |].
      intros Hj%H2. lia.
    + intros j h t. rewrite lookup_assigned_pending. case_decide as Hj.
      * destruct Hj as [<- _]. intros; simplify_eq.
        rewrite lookup_insert_eq in *. by simplify_eq.
      * intros Hp' Hh. pose proof (H2 _ _ Hp') as Hlt.
        rewrite lookup_insert_ne in Hh by lia. by eapply H3.
  - destruct Hwf as [_ H2 H3]. split; [done | |]; simpl.
    + intros j h' [_ Hj]%lookup_delete_Some. by eapply H2.
    + intros j h' t' [_ Hj]%lookup_delete_Some Hh%cleared_sub.
      apply lookup_delete_Some in Hh as [_ Hh]. by eapply H3.
  - destruct Hwf as [_ H2 H3]. by split.
Qed.

Lemma reachable_timers_wf ok w : reachable_by ok w → timers_wf w.
Proof.
  induction 1 as [| w op w' Hw IH _ Hs]; [| by eapply timers_wf_step].
  split; [apply fresh_handles_initial | |]; simpl; intros *; by rewrite lookup_empty.
Qed.

(** A timeout that was handed out and is not armed stays unarmed. *)
Lemma unarmed_stays w ops w' h :
  (h < nextTimer w)%nat → timers w !! h = None →
  run w ops = Some w' →
  (h < nextTimer w')%nat ∧ timers w' !! h = None.
Proof.
  intros Hlt Hno. revert w Hlt Hno.
  induction ops as [| op ops IH]; simpl; intros w Hlt Hno Hr; [by simplify_eq |].
  destruct (step w op) as [w1 |] eqn:Hs; simpl in Hr; [| done].
  eapply (IH w1); [| | done]; apply step_inv in Hs;
    destruct Hs as [thunk asyncId i w0 a Hid _ _ | thunk asyncId i w0 Hid _ _
                   | thunk asyncId i w0 Hid _ | op a _ | i | p i o Hp | p i o Hp
                   | h1 t Ht _ | dt]; simpl; try done;
    try (apply resolveId_same_tracking in Hid as [(_ & _ & Ht & Hn & _) _];
         try destruct thunk; simpl; rewrite ?Ht, ?Hn; try done).
  all: try lia.
  all: repeat match goal with
       | |- context [match ?o with Some _ => _ | None => _ end] => destruct o
       end;
    rewrite ?lookup_delete; repeat case_decide; try done.
  rewrite lookup_insert_ne by lia. done.
Qed.

(** X8. A cancelled cleanup stays cancelled.  In every run, once a call
    that [startAsync] treats as new, or [cleanAsyncState], has cancelled the
    timeout recorded for an id, that timeout never fires, whatever happens
    afterwards: the state of a call that reuses the id is not cleaned by the
    timeout of an earlier call. *)
Theorem cancelled_cleanup_never_fires w i h :
  reachable w →
  pendingCleanCallbacks w !! i = Some h →
  (∀ thunk ops w',
      i ≠ "" → selectAsyncStatus (store w) i ≠ PENDING →
      run w (Start thunk (Some i) :: ops) = Some w' →
      timers w' !! h = None ∧ step w' (Fire h) = None) ∧
  (∀ ops w',
      run w (Clean i :: ops) = Some w' →
      timers w' !! h = None ∧ step w' (Fire h) = None).
Proof.
  intros Hw Hp. pose proof (reachable_timers_wf _ _ Hw) as [_ Hrec _].
  pose proof (Hrec _ _ Hp) as Hlt.
  assert (∀ v, timers v !! h = None → step v (Fire h) = None) as Hfire.
  { intros v Hv. simpl. by rewrite Hv. }
  split.
  - intros thunk ops w' Hi Hst Hr.
    assert (step w (Start thunk (Some i)) = Some (started_world thunk i w)) as H1.
    { simpl. by erewrite startAsync_fresh; [| by apply resolveId_explicit |]. }
    rewrite (run_cons _ _ _ _ H1) in Hr.
    destruct (unarmed_stays (started_world thunk i w) ops w' h) as [_ Hno];
      [exact Hlt | simpl; rewrite Hp; apply lookup_delete_eq | exact Hr |].
    by auto.
  - intros ops w' Hr. rewrite (run_cons _ _ _ _ (step_Clean w i)) in Hr.
    destruct (unarmed_stays (cleaned_world ByCaller i w) ops w' h) as [_ Hno];
      [exact Hlt | simpl; rewrite Hp; apply lookup_delete_eq | exact Hr |].
    by auto.
Qed.

End TimersAndIds.

Section Isolation.
Context {S : Type} `{!Store S} `{!PromiseObjects S}.
Implicit Types (w : World S) (i : string).

Lemma untouched_same j w w' : same_tracking w w' → untouched j w w'.
Proof.
  intros (Hp & Hca & Ht & _ & Hc & _ & Hpr). unfold untouched.
  by rewrite Hp, Hca, Ht, Hc, Hpr.
Qed.

Lemma untouched_after_same j w w0 w' :
  same_tracking w w0 → untouched j w0 w' → untouched j w w'.
Proof.
  intros (Hp & Hca & Ht & _ & Hc & _ & Hpr). unfold untouched.
  by rewrite Hp, Hca, Ht, Hc, Hpr.
Qed.

(** Cancelling the timeout recorded for [i] leaves the timeouts of another
    id armed. *)
Lemma cleared_other w i j h t :
  timers_wf w → i ≠ j → timer_id t = j →
  (match pendingCleanCallbacks w !! i with
   | Some h0 => delete h0 (timers w)
   | None => timers w
   end !! h = Some t ↔ timers w !! h = Some t).
Proof.
  intros [_ _ Hown] Hne Ht. split; [apply cleared_sub |].
  intros Hh. destruct (pendingCleanCallbacks w !! i) as [h0 |] eqn:Hp; [| done].
  rewrite lookup_delete_ne; [done |]. intros <-.
  apply Hne. rewrite <- Ht. symmetry. by eapply Hown.
Qed.

(** Replacing the chain of [p], built for [i], leaves the chains of another
    id as they are. *)
Lemma rechained_other (m : gmap nat Chain) p i j ph ph' q c :
  m !! p = Some {| chain_id := i; chain_phase := ph |} → i ≠ j → chain_id c = j →
  (<[p := {| chain_id := i; chain_phase := ph' |}]> m !! q = Some c ↔ m !! q = Some c).
Proof.
  intros Hp Hne Hc. rewrite lookup_insert. case_decide as Hq; [| done].
  subst q. split; intros; simplify_eq; done.
Qed.

(** What the cache yields for an id depends on the entry held for the id
    and on the prototype of the cache only, as long as the prototype is
    [Object.prototype]. *)
Lemma untouched_get j w w' :
  untouched j w w' → cachePrototype w = None →
  asyncCallCache_get j w' = asyncCallCache_get j w.
Proof.
  intros (Hpr & Hc & _) Hnone. unfold asyncCallCache_get. by rewrite Hc, Hpr, Hnone.
Qed.

(** X9. Calls for different ids do not interfere in the tracker.  In every
    run, an operation that works on one id (a call of an action creator, a
    promise reaction, a timeout that fires) leaves what the tracker holds for
    every other id as it was: its cache entry, its recorded timeout handle,
    the timeouts armed for it and the chains built for it; and as long as no
    handle has become the prototype of the cache, what the cache yields for
    the other id is as it was.  Stated for operations on every id but
    "__proto__": a call under that id changes the prototype of the cache,
    and with it what the cache yields for other ids. *)
Theorem ids_do_not_interfere w op w' j :
  reachable w →
  step w op = Some w' →
  subject w op ≠ Some j →
  subject w op ≠ Some "__proto__" →
  untouched j w w' ∧
  (cachePrototype w = None → asyncCallCache_get j w' = asyncCallCache_get j w).
Proof.
  intros Hw Hs Hsub Hpk.
  cut (untouched j w w'); [intros Hu; split; [done | by apply untouched_get] |].
  pose proof (reachable_timers_wf _ _ Hw) as Hwf.
  pose proof Hwf as [[Hfc Hft] _ _].
  apply step_inv in Hs.
  destruct Hs as [thunk asyncId i w0 a Hid _ _ | thunk asyncId i w0 Hid _ _
                 | thunk asyncId i w0 Hid _ | op a _ | i | p i o Hp | p i o Hp
                 | h t Ht _ | dt].
  - apply resolveId_same_tracking in Hid as [Hid _]. apply untouched_same.
    destruct thunk; [| done]. eapply same_tracking_trans; [done |]. apply warn_same_tracking.
  - apply resolveId_same_tracking in Hid as [Hid _]. by apply untouched_same.
  - assert (i ≠ j) as Hne.
    { intros ->. apply Hsub. simpl. unfold id_of_start. by rewrite Hid. }
    assert (i ≠ "__proto__") as Hi.
    { intros ->. apply Hpk. simpl. unfold id_of_start. by rewrite Hid. }
    apply resolveId_same_tracking in Hid as [Hid _].
    eapply untouched_after_same; [done |].
    apply (timers_wf_same _ _ Hid) in Hwf. pose proof Hwf as [[Hfc0 _] _ _].
    destruct (assigned_cache_plain w0 i {| promise := nextPromise w0; id := i |} Hi)
      as [Hac Hap].
    split_and!; simpl.
    + done.
    + by rewrite Hac, lookup_insert_ne.
    + done.
    + intros h t Ht. by apply (cleared_other _ i j).
    + intros q c Hc. rewrite lookup_insert. case_decide as Hq; [| done].
      subst q. split; [by intros; simplify_eq |].
      intros Hq%Hfc0. lia.
  - apply untouched_same, dispatch_same_tracking.
  - assert (i ≠ j) as Hne by (intros ->; by apply Hsub).
    split_and!; simpl; [done | done | by rewrite lookup_delete_ne | | done].
    intros h t Ht. by apply (cleared_other _ i j).
  - assert (i ≠ j) as Hne by (intros ->; apply Hsub; simpl; by rewrite Hp).
    split_and!; simpl; [done | done | done | done |].
    intros q c Hc. by eapply rechained_other.
  - assert (i ≠ j) as Hne by (intros ->; apply Hsub; simpl; by rewrite Hp).
    assert (i ≠ "__proto__") as Hi by (intros ->; apply Hpk; simpl; by rewrite Hp).
    split_and!; simpl.
    + done.
    + by rewrite lookup_delete_ne.
    + by rewrite assigned_pending_plain, lookup_insert_ne.
    + intros h t Ht. rewrite lookup_insert. case_decide as Hh; [| done].
      subst h. split; [by intros; simplify_eq |].
      intros Hh%Hft. lia.
    + intros q c Hc. eapply rechained_other; [exact Hp | exact Hne | exact Hc].
  - assert (timer_id t ≠ j) as Hne.
    { intros Heq. apply Hsub. simpl. rewrite Ht. simpl. by rewrite Heq. }
    assert (timers_wf (fired h w)) as Hwf'.
    { destruct Hwf as [Hf H2 H3]. split; simpl.
      - split; [done |]. simpl. intros h' t' [_ Hh]%lookup_delete_Some. by eapply Hft.
      - done.
      - intros i h' t' Hi [_ Hh]%lookup_delete_Some. by eapply H3. }
    split_and!; simpl; [done | done | by rewrite lookup_delete_ne | | done].
    intros h' t' Ht'.
    rewrite (cleared_other (fired h w) (timer_id t) j h' t' Hwf' Hne Ht'). simpl.
    rewrite lookup_delete. case_decide as Hh; [| done].
    subst h'. split; [done |]. intros Hh. rewrite Ht in Hh. by simplify_eq.
  - by split_and!.
Qed.

End Isolation.

Module MoreChecks.
Import SpecStore SpecStoreFacts Scenarios ScenariosFacts MoreScenarios.

(** The running call for "x" is fulfilled with "Ana". *)
Lemma fulfilment_is_reported_and_passed_on_witness :
  ∃ w1, step (after one_call) (Settle 0 (Fulfilled "Ana")) = Some w1 ∧
    log w1 = EDispatch (ByCall 0) (resolveAsync "x") :: log (after one_call) ∧
    ∃ w3, step w1 (Finally 0) = Some w3 ∧
      chains w3 !! 0%nat = Some {| chain_id := "x"; chain_phase := Done (Fulfilled "Ana") |}.
Proof.
  destruct (fulfilment_is_reported_and_passed_on (after one_call) 0 "x" "Ana")
    as (w1 & Hs & Hl & _ & _ & _ & Hlater).
  - apply reachable_after. vm_compute. eexists. reflexivity.
  - vm_compute. reflexivity.
  - exists w1. split; [exact Hs |]. split; [exact Hl |].
    destruct (Hlater [] w1) as (w3 & Hf & Hdone).
    + reflexivity.
    + apply not_elem_of_nil.
    + exists w3. split; [exact Hf |]. apply (Hdone [] w3). reflexivity.
Defined.

(** Two of the three calls fall back on the generator. *)
Lemma generated_ids_are_numbered_witness :
  nextAsyncId (after mixed_ids) = 2 ∧
  id_of_start (after [Start (AThunk 0) None; Start (AThunk 1) (Some "x")]) (Some "")
    = "async-1".
Proof.
  destruct (generated_ids_are_numbered (initial : World AsyncState) mixed_ids (after mixed_ids))
    as [Hn Hid].
  - vm_compute. reflexivity.
  - vm_compute. discriminate.
  - split; [exact Hn |].
    apply (Hid [Start (AThunk 0) None; Start (AThunk 1) (Some "x")] (AThunk 2) (Some "") []).
    + reflexivity.
    + vm_compute. reflexivity.
Defined.

(** A call without an id gets the handle of the call started as "async-0". *)
Lemma generated_id_joins_a_running_call_witness :
  (startAsync (AThunk 1) None (after explicit_async0)).1
    = Return (Handle {| promise := 0; id := "async-0" |}) ∧
  chains (startAsync (AThunk 1) None (after explicit_async0)).2
    = chains (after explicit_async0).
Proof.
  destruct (generated_id_joins_a_running_call (after explicit_async0) (AThunk 1) None
              {| promise := 0; id := "async-0" |}) as (Hret & _ & Hch & _).
  - left. reflexivity.
  - vm_compute. reflexivity.
  - vm_compute. reflexivity.
  - split; [exact Hret | exact Hch].
Defined.

(** The life of one call for "x", from the initial state. *)
Lemma fire_and_forget_leaves_nothing_witness :
  ∃ w',
    run (initial : World AsyncState)
      [Start (AThunk 0) (Some "x"); Settle 0 (Rejected "boom"); Finally 0;
       Advance CLEAN_DELAY; Fire 0] = Some w' ∧
    asyncCallCache w' = ∅ ∧ pendingCleanCallbacks w' = ∅ ∧ timers w' = ∅.
Proof.
  destruct (fire_and_forget_leaves_nothing (initial : World AsyncState) (AThunk 0) "x"
              (Rejected "boom")) as (w' & Hr & Hc & _ & Hp & Ht & _).
  - constructor.
  - discriminate.
  - discriminate.
  - vm_compute. discriminate.
  - reflexivity.
  - reflexivity.
  - exists w'. split; [exact Hr |]. split; [exact Hc |]. split; [exact Hp | exact Ht].
Defined.

(** The running call for "x" is the one that is cached. *)
Lemma joiners_get_the_call_in_flight_witness :
  asyncCallCache_get "x" (after one_call) = Some (Handle {| promise := 0; id := "x" |}) ∧
  (startAsync (APromise 7) (Some "x") (after one_call)).1
    = Return (Handle {| promise := 0; id := "x" |}).
Proof.
  destruct (joiners_get_the_call_in_flight (after one_call) 0
              {| chain_id := "x"; chain_phase := Running |} "x") as (Hc & _ & _ & Hjoin).
  - apply sequenced_after. vm_compute. eexists. reflexivity.
  - vm_compute. reflexivity.
  - split; [reflexivity | intros o Ho; discriminate Ho].
  - split; [exact Hc |]. apply Hjoin. vm_compute. reflexivity.
Defined.

(** While a call for "y" runs, the timeout of the finished call for "x"
    fires and cleans "x". *)
Lemma no_cleanup_timer_while_call_runs_witness :
  ∃ j, j ≠ "y" ∧
    transitions
      (after (one_finished ++ [Start (AThunk 1) (Some "y"); Advance 1000; Fire 0]))
    = metaAction CLEAN_ASYNC_STATE j
        :: transitions (after (one_finished ++ [Start (AThunk 1) (Some "y"); Advance 1000])).
Proof.
  destruct (no_cleanup_timer_while_call_runs
              (after (one_finished ++ [Start (AThunk 1) (Some "y"); Advance 1000])) 1
              {| chain_id := "y"; chain_phase := Running |} "y") as [_ Hfire].
  - apply sequenced_after. vm_compute. eexists. reflexivity.
  - discriminate.
  - vm_compute. reflexivity.
  - split; [reflexivity | intros o Ho; discriminate Ho].
  - destruct (Hfire 0%nat
                (after (one_finished ++ [Start (AThunk 1) (Some "y"); Advance 1000; Fire 0])))
      as (j & Hj & Htr & _).
    + vm_compute. reflexivity.
    + exists j. split; [exact Hj | exact Htr].
Defined.

(** A joined handle carries the id. *)
Lemma returned_handle_carries_id_of_call_witness :
  id {| promise := 0; id := "x" |} = id_of_start (after one_call) (Some "x").
Proof.
  destruct (returned_handle_carries_id_of_call (after one_call) (APromise 7) (Some "x")
              {| promise := 0; id := "x" |}) as [Hid _].
  - apply reachable_after. vm_compute. eexists. reflexivity.
  - vm_compute. reflexivity.
  - exact Hid.
Defined.

(** The timeout of a finished call for "x" is cancelled by a new call. *)
Lemma cancelled_cleanup_never_fires_witness :
  timers (after (one_finished ++ [Start (AThunk 1) (Some "x"); Advance 5000])) !! 0%nat = None ∧
  step (after (one_finished ++ [Start (AThunk 1) (Some "x"); Advance 5000])) (Fire 0) = None.
Proof.
  destruct (cancelled_cleanup_never_fires (after one_finished) "x" 0) as [Hstart _].
  - apply reachable_after. vm_compute. eexists. reflexivity.
  - vm_compute. reflexivity.
  - apply (Hstart (AThunk 1) [Advance 5000]).
    + discriminate.
    + vm_compute. discriminate.
    + vm_compute. reflexivity.
Defined.

(** A call for "y" leaves what is held for "x" alone. *)
Lemma ids_do_not_interfere_witness :
  asyncCallCache_get "x" (after (one_call ++ [Start (AThunk 1) (Some "y")]))
  = asyncCallCache_get "x" (after one_call).
Proof.
  destruct (ids_do_not_interfere (after one_call) (Start (AThunk 1) (Some "y"))
              (after (one_call ++ [Start (AThunk 1) (Some "y")])) "x") as [_ Hget].
  - apply reachable_after. vm_compute. eexists. reflexivity.
  - vm_compute. reflexivity.
  - vm_compute. discriminate.
  - vm_compute. discriminate.
  - apply Hget. vm_compute. reflexivity.
Defined.

End MoreChecks.
